(** * dbcview: a shallow embedding of [dbcview.py]

    The program reads a CAN database (nodes, messages, signals), resolves
    sender and receiver node sets from the command-line filters, computes
    the list of (sender, receiver, message) edges and hands them, with a
    colour per message, to graphviz.

    Python values are modelled as follows:
    - [int] is [Z]; [str] is [string]; a [list] is a [list], indexed with
      stdpp's lookup [!!] and updated with [<[i:=x]>];
    - a [set] of strings is a [gset string], [list(set(..))] is [elements];
    - [float] is IEEE-754 binary64, as [spec_float] with [prec = 53] and
      [emax = 1024];
    - an exception is a constructor of [exn] carried by [result];
    - the list [db.messages], which [sort_messages_by_CAN_id] reorders in
      place, is a field of the database state that [get_edges] and [main]
      return next to their value. *)

From Stdlib Require Import ZArith String Ascii SpecFloat.
From Stdlib Require Import HexadecimalString DecimalString.
From stdpp Require Import base list gmap strings.

Local Open Scope string_scope.

(** ** Data model (the cantools records the program reads) *)

Record Signal := mkSignal {
  sig_name : string;
  sig_receivers : list string
}.

Record Message := mkMessage {
  frame_id : Z;
  msg_name : string;
  msg_senders : list string;
  msg_signals : list Signal
}.

Record Node := mkNode { node_name : string }.

Record Database := mkDatabase {
  db_nodes : list Node;
  db_messages : list Message
}.

#[global] Instance Signal_eq_dec : EqDecision Signal.
Proof. solve_decision. Defined.

#[global] Instance Message_eq_dec : EqDecision Message.
Proof. solve_decision. Defined.

(** ** Exceptions *)

Inductive exn := IndexError | ValueError | OverflowError.

Inductive result (A : Type) :=
| Ok (a : A)
| Raise (e : exn).
Arguments Ok {A} a.
Arguments Raise {A} e.

(** Sequencing: the first exception raised ends the computation. *)
#[global] Instance result_bind : MBind result := λ A B k r,
  match r with
  | Ok a => k a
  | Raise e => Raise e
  end.

(** [l[i]] for [0 <= i]: out of range raises [IndexError]. *)
Definition getitem {A} (l : list A) (i : nat) : result A :=
  match l !! i with
  | Some a => Ok a
  | None => Raise IndexError
  end.

(** [l[i] = x] for [0 <= i]: out of range raises [IndexError]. *)
Definition setitem {A} (l : list A) (i : nat) (x : A) : result (list A) :=
  if bool_decide (i < length l) then Ok (<[i:=x]> l) else Raise IndexError.

(** ** [sort_messages_by_CAN_id] *)

(** The state of the [while] loop: the list and the scan index. *)
Definition sort_state : Type := list Message * nat.

(** The loop guard [i < len(msgs) - 2], on Python's unbounded integers. *)
Definition sort_guard (msgs : list Message) (i : nat) : bool :=
  bool_decide (Z.of_nat i < Z.of_nat (length msgs) - 2)%Z.

(** One execution of the loop body. After a swap the code sets [i = 0]
    and then runs the unconditional [i += 1]. *)
Definition sort_body (msgs : list Message) (i : nat) : result sort_state :=
  a ← getitem msgs i ;
  b ← getitem msgs (i + 1) ;
  if bool_decide (frame_id a > frame_id b)%Z then
    tmp ← getitem msgs i ;
    x ← getitem msgs (i + 1) ;
    msgs1 ← setitem msgs i x ;
    msgs2 ← setitem msgs1 (i + 1) tmp ;
    Ok (msgs2, 0 + 1)
  else
    Ok (msgs, i + 1).

(** What a bounded run of the loop can end in. *)
Inductive run (A : Type) :=
| Done (a : A)
| Raised (e : exn)
| OutOfFuel.
Arguments Done {A} a.
Arguments Raised {A} e.
Arguments OutOfFuel {A}.

Fixpoint sort_loop (fuel : nat) (msgs : list Message) (i : nat)
  : run (list Message) :=
  match fuel with
  | O => OutOfFuel
  | S fuel' =>
      if sort_guard msgs i then
        match sort_body msgs i with
        | Ok (msgs', i') => sort_loop fuel' msgs' i'
        | Raise e => Raised e
        end
      else Done msgs
  end.

(** Number of messages after [a] in [t] with a smaller identifier. *)
Definition smaller (a : Message) (t : list Message) : nat :=
  length (List.filter (λ b, bool_decide (frame_id b < frame_id a)%Z) t).

(** Number of pairs of positions that are out of order. *)
Fixpoint inversions (l : list Message) : nat :=
  match l with
  | [] => 0
  | a :: t => smaller a t + inversions t
  end.

(** Iterations that always suffice, see [sort_loop_enough]. *)
Definition sort_fuel (msgs : list Message) : nat :=
  inversions msgs * S (length msgs) + length msgs + 1.

(** The function itself. The last branch is never taken
    ([sort_loop_sort_fuel]). *)
Definition sort_messages_by_CAN_id (msgs : list Message) : list Message :=
  match sort_loop (sort_fuel msgs) msgs 0 with
  | Done r => r
  | _ => msgs
  end.

(** ** [messages_from_a_to_b] *)

(** [x in l] on a list of strings. *)
Definition py_in (x : string) (l : list string) : bool := bool_decide (x ∈ l).

(** [any(l)] on a list of booleans. *)
Definition any (l : list bool) : bool := existsb id l.

(** The comprehension that selects [msgs_to_search]. *)
Definition msgs_to_search (messages : list Message) (senders : list string)
  : list Message :=
  List.filter
    (λ msg, any (map (λ sender, py_in sender (msg_senders msg)) senders))
    messages.

(** The test of the inner [if]. *)
Definition received_by (receiver : string) (msg : Message) : bool :=
  any (map (λ sig, py_in receiver (sig_receivers sig)) (msg_signals msg)).

(** The two nested [for] loops, threading [matching_messages]. *)
Definition messages_from_a_to_b (messages : list Message)
    (senders receivers : list string) : list Message :=
  foldl
    (λ matching_messages msg,
       foldl
         (λ matching_messages receiver,
            if received_by receiver msg
            then (matching_messages ++ [msg])%list
            else matching_messages)
         matching_messages receivers)
    [] (msgs_to_search messages senders).

(** ** [to_hex_str] and [color_str_for_msg] *)

(** Python's [float]: binary64. *)
Definition prec : Z := 53.
Definition emax : Z := 1024.

(** [float(z)], round to nearest even. Exact for [|z| <= 2^53]. *)
Definition float_of_int (z : Z) : spec_float :=
  binary_normalize prec emax z 0 false.

(** The literal [0.5]. *)
Definition float_half : spec_float := binary_normalize prec emax 1 (-1) false.

(** [a / b] on integers, [b <> 0]. Python rounds the exact quotient once;
    dividing the two converted operands is the same value whenever both
    are at most [2^53] in magnitude, which covers every CAN identifier
    (29 bits). *)
Definition int_truediv (a b : Z) : spec_float :=
  SFdiv prec emax (float_of_int a) (float_of_int b).

(** [int(x)]: truncation towards zero. *)
Definition int_of_float (x : spec_float) : result Z :=
  match x with
  | S754_zero _ => Ok 0%Z
  | S754_finite s m e =>
      let v := Z.shiftl (Z.pos m) e in
      Ok (if s then (- v)%Z else v)
  | S754_infinity _ => Raise OverflowError
  | S754_nan => Raise ValueError
  end.

(** [hex(n)]: lowercase digits, no leading zeros, sign before [0x]. *)
Definition hex (n : Z) : string :=
  match n with
  | Zneg p =>
      "-0x" +:+ HexadecimalString.NilZero.string_of_uint (Pos.to_hex_uint p)
  | _ =>
      "0x" +:+ HexadecimalString.NilZero.string_of_uint (N.to_hex_uint (Z.to_N n))
  end.

(** [s[n:]] for [n >= 0]. *)
Fixpoint slice_from (n : nat) (s : string) : string :=
  match n, s with
  | O, _ => s
  | S n', String _ s' => slice_from n' s'
  | S _, EmptyString => EmptyString
  end.

Definition to_hex_str (val : spec_float) : result string :=
  n ← int_of_float (SFmul prec emax val (float_of_int 255)) ;
  Ok (slice_from 2 (hex n)).

Definition color_str_for_msg (msg : Message) (min_id max_id : Z)
  : result string :=
  let id_range := (max_id - min_id)%Z in
  let norm :=
    if bool_decide (id_range ≠ 0%Z)
    then int_truediv (frame_id msg - min_id) id_range
    else float_half in
  red ← to_hex_str (SFsub prec emax (float_of_int 1) norm) ;
  blue ← to_hex_str norm ;
  Ok ("#" +:+ red +:+ "00" +:+ blue).

(** ** [fmt_msg_name] and [get_node_names] *)

Definition newline : string := String (ascii_of_nat 10) EmptyString.

Definition fmt_msg_name (msg : Message) : string :=
  msg_name msg +:+ newline +:+ hex (frame_id msg) +:+ " ("
    +:+ DecimalString.NilZero.string_of_int (Z.to_int (frame_id msg)) +:+ ")".

(** [list(set(l))]. Python leaves the order of the result unspecified;
    [elements] gives one duplicate-free enumeration. *)
Definition list_set (l : list string) : list string :=
  elements (list_to_set l : gset string).

Definition get_node_names (db : Database) : list string :=
  list_set (map node_name (db_nodes db)).

(** ** [get_edges] *)

Definition Edge : Type := string * string * Message.

(** The call sorts [db.messages] in place: the database is returned with
    its message list reordered, next to the edges. *)
Definition get_edges (db : Database) (senders receivers : list string)
  : list Edge * Database :=
  let sorted_messages := sort_messages_by_CAN_id (db_messages db) in
  let db' := mkDatabase (db_nodes db) sorted_messages in
  let edges :=
    foldl
      (λ edges sender,
         foldl
           (λ edges receiver,
              foldl
                (λ edges msg, (edges ++ [(sender, receiver, msg)])%list)
                edges
                (messages_from_a_to_b sorted_messages [sender] [receiver]))
           edges receivers)
      [] senders in
  (edges, db').

(** ** [dbcview] *)

(** What graphviz is given: one [g.edge(...)] call per edge, then
    [g.view(cleanup=True, directory=output_dir)]. *)
Record GEdge := mkGEdge {
  tail_name : string;
  head_name : string;
  label : string;
  color : string
}.

Record Digraph := mkDigraph {
  g_name : string;
  g_filename : string;
  g_body : list GEdge
}.

Record Artifact := mkArtifact {
  a_graph : Digraph;
  a_directory : string
}.

(** [min(l)] and [max(l)]: an empty argument raises [ValueError]. *)
Definition py_min (l : list Z) : result Z :=
  match l with
  | [] => Raise ValueError
  | x :: t => Ok (foldl Z.min x t)
  end.

Definition py_max (l : list Z) : result Z :=
  match l with
  | [] => Raise ValueError
  | x :: t => Ok (foldl Z.max x t)
  end.

(** [s.replace(a, b)] for single characters. *)
Fixpoint replace_char (a b : ascii) (s : string) : string :=
  match s with
  | EmptyString => EmptyString
  | String c s' =>
      String (if bool_decide (c = a) then b else c) (replace_char a b s')
  end.

(** A [for] loop whose body may raise: the exception leaves the loop. *)
Fixpoint for_each {A S} (body : S → A → result S) (l : list A) (s : S)
  : result S :=
  match l with
  | [] => Ok s
  | x :: t => s' ← body s x ; for_each body t s'
  end.

Definition edge_msg (e : Edge) : Message := e.2.

Definition dbcview (graph_name : string) (edges : list Edge)
    (output_dir : string) : result Artifact :=
  let g := mkDigraph graph_name (replace_char " " "_" graph_name) [] in
  min_id ← py_min (map (λ e, frame_id (edge_msg e)) edges) ;
  max_id ← py_max (map (λ e, frame_id (edge_msg e)) edges) ;
  g ← for_each
        (λ g '(sender, receiver, msg),
           c ← color_str_for_msg msg min_id max_id ;
           Ok (mkDigraph (g_name g) (g_filename g)
                 (g_body g ++ [mkGEdge sender receiver (fmt_msg_name msg) c])%list))
        edges g ;
  Ok (mkArtifact g output_dir).

(** ** [main] *)

(** The world outside the program: what [cantools.db.load_file],
    [pathlib.Path(..).stem], [os.path.isdir] and
    [tempfile.TemporaryDirectory().name] answer. *)
Record Env := mkEnv {
  load_file : string → Database;
  path_stem : string → string;
  isdir : string → bool;
  tmpdir : string
}.

(** The lines [main] prints, with the values interpolated in them:
    - ["No nodes found in this DBC!"];
    - ["specified nodes: [a, b] not found in <file>"];
    - ["nodes in this file: [a, b]"];
    - ["No edges found between <senders> and <receivers>"]. *)
Inductive line :=
| NoNodesLine
| NotFoundLine (nonexistent_nodes : list string) (dbc_filename : string)
| NodesInFileLine (names : list string)
| NoEdgesLine (all_senders all_receievers : list string).

(** How a call of [main] ends: an early [return], the graph viewed, or
    an exception that nothing catches. *)
Inductive ending :=
| Returned
| Viewed (a : Artifact)
| Uncaught (e : exn).

Record MainRun := mkMainRun {
  stdout : list line;
  db_after : Database;
  ended : ending
}.

(** Truth value of a list and of a string: non-empty. *)
Definition truthy {A} (l : list A) : bool :=
  match l with [] => false | _ => true end.

Definition truthy_str (s : string) : bool :=
  match s with EmptyString => false | _ => true end.

(** [a or b] on lists. *)
Definition list_or {A} (a b : list A) : list A := if truthy a then a else b.

(** Lines 115-128: the ignore subtraction and the three filter modes.
    Returns [(all_senders, all_receievers)]. *)
Definition select_nodes (all_nodes nodes senders receivers ignore : list string)
  : list string * list string :=
  let all_nodes := List.filter (λ n, negb (py_in n ignore)) all_nodes in
  if truthy nodes then
    let all_receievers := list_set (nodes ++ all_nodes) in
    (all_receievers, all_receievers)
  else if truthy senders || truthy receivers then
    (list_or senders all_nodes, list_or receivers all_nodes)
  else
    (all_nodes, all_nodes).

(** Lines 134-139: the title of the graph. *)
Definition graph_title (stem : string) (senders receivers : list string)
  : string :=
  if bool_decide ((list_to_set senders : gset string) ≠ list_to_set receivers)
  then
    let sender_expr :=
      if truthy senders then "from " +:+ String.concat " " senders else "" in
    let receiver_expr :=
      if truthy receivers then "to " +:+ String.concat " " receivers else "" in
    if truthy_str sender_expr || truthy_str receiver_expr
    then stem +:+ " " +:+ sender_expr +:+ " " +:+ receiver_expr
    else stem
  else stem.

Definition main (env : Env) (dbc_filename : string)
    (nodes senders receivers ignore : list string) (output_dir : string)
  : MainRun :=
  let db := load_file env dbc_filename in
  let all_nodes := get_node_names db in
  if bool_decide (all_nodes = []) then
    mkMainRun [NoNodesLine] db Returned
  else
    let nonexistent_nodes :=
      List.filter (λ n, negb (py_in n all_nodes))
        (nodes ++ senders ++ receivers ++ ignore) in
    if truthy nonexistent_nodes then
      mkMainRun
        [NotFoundLine nonexistent_nodes dbc_filename;
         NodesInFileLine (get_node_names db)]
        db Returned
    else
      let '(all_senders, all_receievers) :=
        select_nodes all_nodes nodes senders receivers ignore in
      let '(edges, db') := get_edges db all_senders all_receievers in
      let out :=
        if negb (truthy edges)
        then [NoEdgesLine all_senders all_receievers] else [] in
      let graph_name := graph_title (path_stem env dbc_filename) senders receivers in
      let output_dir :=
        if isdir env output_dir then output_dir else tmpdir env in
      match dbcview graph_name edges output_dir with
      | Ok a => mkMainRun out db' (Viewed a)
      | Raise e => mkMainRun out db' (Uncaught e)
      end.

(** ** Definitions used to state the properties *)

(** A message qualifies for given sender and receiver names when one of
    the sender names is among its senders and one of the receiver names
    is among the receivers of one of its signals. *)
Definition qualifies (senders receivers : list string) (msg : Message) : Prop :=
  (∃ sender, sender ∈ senders ∧ sender ∈ msg_senders msg) ∧
  (∃ receiver, receiver ∈ receivers ∧
     ∃ sig, sig ∈ msg_signals msg ∧ receiver ∈ sig_receivers sig).

(** The same test, computed. *)
Definition qualifiesb (senders receivers : list string) (msg : Message) : bool :=
  existsb (λ sender, py_in sender (msg_senders msg)) senders
  && existsb (λ receiver, received_by receiver msg) receivers.

(** How many entries of [receivers] are received from [msg]. *)
Definition hits (receivers : list string) (msg : Message) : nat :=
  length (List.filter (λ receiver, received_by receiver msg) receivers).

(** How often [msg] occurs in [l]. *)
Definition occurrences (msg : Message) (l : list Message) : nat :=
  length (List.filter (λ x, bool_decide (x = msg)) l).

(** The colour as the specification words it, to compare with
    [color_str_for_msg]: [norm] is the position of the identifier in the
    range (one half when the range is empty), the red channel is
    [round((1 - norm) * 255)], the blue one [round(norm * 255)], each
    written as two lowercase hexadecimal digits. [round_div n d] is
    [n / d] rounded to nearest, ties to even. *)
Definition round_div (n d : Z) : Z :=
  let q := (n / d)%Z in
  let r := (n mod d)%Z in
  if bool_decide (2 * r < d)%Z then q
  else if bool_decide (d < 2 * r)%Z then (q + 1)%Z
  else if Z.even q then q else (q + 1)%Z.

Definition two_hex (n : Z) : string :=
  let s := HexadecimalString.NilZero.string_of_uint (N.to_hex_uint (Z.to_N n)) in
  if bool_decide (String.length s < 2) then "0" +:+ s else s.

Definition spec_color (msg : Message) (min_id max_id : Z) : string :=
  let '(num, den) :=
    if bool_decide (min_id < max_id)%Z
    then ((frame_id msg - min_id)%Z, (max_id - min_id)%Z)
    else (1%Z, 2%Z) in
  "#" +:+ two_hex (round_div ((den - num) * 255) den)
      +:+ "00"
      +:+ two_hex (round_div (num * 255) den).

(** ** Concrete databases *)

Definition sig_to_B : Signal := mkSignal "speed" ["B"].
Definition sig_to_BC : Signal := mkSignal "speed" ["B"; "C"].

(** A message with identifier [n], sent by [A], read by [B]. *)
Definition msg_AB (n : Z) : Message := mkMessage n "status" ["A"] [sig_to_B].

(** A message sent by [A] whose signal is read by [B] and by [C]. *)
Definition msg_ABC : Message := mkMessage 1 "status" ["A"] [sig_to_BC].

Definition nodes_AB : list Node := [mkNode "A"; mkNode "B"].
Definition nodes_ABC : list Node := [mkNode "A"; mkNode "B"; mkNode "C"].

(** Four messages from [A] to [B], in descending identifier order. *)
Definition db_descending : Database :=
  mkDatabase nodes_AB (map msg_AB [3; 2; 1; 0]%Z).

(** Two nodes and no message at all. *)
Definition db_silent : Database := mkDatabase nodes_AB [].

Definition db_three : Database := mkDatabase nodes_ABC [msg_ABC].

Definition env_of (db : Database) : Env :=
  mkEnv (λ _, db) (λ _, "bus") (λ _, false) "/tmp/graphs".

(** ** [cli] *)

(** [s.split(sep)] for a one-character separator: one more piece than
    there are separators, empty pieces kept. *)
Fixpoint str_split (sep : ascii) (s : string) : list string :=
  match s with
  | EmptyString => [EmptyString]
  | String c s' =>
      if bool_decide (c = sep) then EmptyString :: str_split sep s'
      else
        match str_split sep s' with
        | piece :: pieces => String c piece :: pieces
        | [] => [String c EmptyString]
        end
  end.

(** [x.split(',') if x else []]. *)
Definition split_names (x : string) : list string :=
  if truthy_str x then str_split "," x else [].

(** The command: click hands over the file name, the tuple of
    positional node names and the four option strings. *)
Definition cli (env : Env) (filename : string) (nodes : list string)
    (senders receivers ignore o : string) : MainRun :=
  main env filename nodes
    (split_names senders) (split_names receivers) (split_names ignore) o.

(** ** Further definitions used to state properties *)

(** The neighbours the scan compares, all but the last pair, are in
    ascending order. *)
Definition scanned_ascending (msgs : list Message) : Prop :=
  ∀ j a b, j + 2 < length msgs →
           msgs !! j = Some a → msgs !! (j + 1) = Some b →
           (frame_id a ≤ frame_id b)%Z.

(** The characters of a string. *)
Fixpoint chars (s : string) : list ascii :=
  match s with
  | EmptyString => []
  | String c s' => c :: chars s'
  end.

(** What graphviz is told about an edge apart from its colour. *)
Definition gedge_shape (ge : GEdge) : string * string * string :=
  (tail_name ge, head_name ge, label ge).

(** Four messages whose scanned pairs are in order; the last is not. *)
Definition msgs_ascending : list Message := map msg_AB [1; 2; 3; 0]%Z.

Definition db_ascending : Database := mkDatabase nodes_AB msgs_ascending.

(** Names that can be given in a comma-separated option: none holds a
    comma, and the list is not the single empty name. *)
Definition plain_names (l : list string) : Prop :=
  l ≠ [EmptyString] ∧ ∀ n, n ∈ l → ","%char ∉ chars n.

(** Number of occurrences of a character. *)
Definition count_char (c : ascii) (s : string) : nat :=
  length (List.filter (λ x, bool_decide (x = c)) (chars s)).

(** Two edges from [A] to [B] and what [dbcview] makes of them. *)
Definition edges_AB : list Edge :=
  [("A", "B", msg_AB 1); ("A", "B", msg_AB 3)].

Definition artifact_AB : Artifact :=
  Eval vm_compute in
    match dbcview "bus" edges_AB "/tmp/graphs" with
    | Ok a => a
    | Raise _ => mkArtifact (mkDigraph "" "" []) ""
    end.

(** The messages of [db_descending] in a database with a third node. *)
Definition db_descending_ABC : Database :=
  mkDatabase nodes_ABC (map msg_AB [3; 2; 1; 0]%Z).

(** * Properties *)

Local Close Scope string_scope.
#[local] Set Warnings "-clear-no-such-hyp".

(** ** The sort loop *)

Section sort_facts.
Implicit Types (msgs p s : list Message) (a b : Message) (i : nat).

Lemma swap_adjacent msgs i a b :
  msgs !! i = Some a → msgs !! (i + 1) = Some b →
  msgs = take i msgs ++ a :: b :: drop (i + 2) msgs
  ∧ <[i + 1 := a]> (<[i := b]> msgs) = take i msgs ++ b :: a :: drop (i + 2) msgs.
Proof.
  revert i. induction msgs as [|x msgs IH]; intros [|i] Ha Hb; simplify_eq/=.
  - destruct msgs; simplify_eq/=. by rewrite drop_0.
  - destruct (IH i Ha Hb) as [E1 E2]. split; f_equal; done.
Qed.

Lemma sort_guard_spec msgs i :
  sort_guard msgs i = true ↔ i + 2 < length msgs.
Proof. unfold sort_guard. rewrite bool_decide_eq_true. lia. Qed.

(** Inside the list, the body compares two neighbours and either swaps
    them and goes to index 1, or moves on by one. *)
Lemma sort_body_spec msgs i :
  i + 1 < length msgs →
  ∃ p a b s, msgs = p ++ a :: b :: s ∧ length p = i ∧
    sort_body msgs i =
      Ok (if bool_decide (frame_id a > frame_id b)%Z
          then (p ++ b :: a :: s, 1) else (msgs, i + 1)).
Proof.
  intros Hi.
  destruct (lookup_lt_is_Some_2 msgs i) as [a Ha]; [lia|].
  destruct (lookup_lt_is_Some_2 msgs (i + 1)) as [b Hb]; [lia|].
  destruct (swap_adjacent msgs i a b Ha Hb) as [E1 E2].
  exists (take i msgs), a, b, (drop (i + 2) msgs).
  split; [done|]. split; [rewrite length_take; lia|].
  unfold sort_body, getitem, setitem. rewrite Ha, Hb. simpl.
  case_bool_decide; [|done]. simpl.
  rewrite bool_decide_eq_true_2 by lia. simpl.
  rewrite bool_decide_eq_true_2 by (rewrite length_insert; lia). simpl.
  by rewrite E2.
Qed.

(** At the end of the list the body raises; the guard keeps it away. *)
Lemma sort_body_raise msgs i e :
  sort_body msgs i = Raise e → sort_guard msgs i = false.
Proof.
  intros Hb. destruct (sort_guard msgs i) eqn:Hg; [|done].
  apply sort_guard_spec in Hg.
  destruct (sort_body_spec msgs i) as (p & a & b & s & _ & _ & E); [lia|].
  congruence.
Qed.

Lemma smaller_app a p s : smaller a (p ++ s) = smaller a p + smaller a s.
Proof. unfold smaller. by rewrite List.filter_app, length_app. Qed.

Lemma smaller_cons x a s :
  smaller x (a :: s) =
    (if bool_decide (frame_id a < frame_id x)%Z then 1 else 0) + smaller x s.
Proof. unfold smaller. simpl. by case_bool_decide. Qed.

Lemma inversions_app p s :
  inversions (p ++ s) =
    inversions p + foldr (λ a n, smaller a s + n) 0 p + inversions s.
Proof.
  induction p as [|a p IH]; simpl; [done|].
  rewrite smaller_app, IH. lia.
Qed.

(** Swapping two neighbours that are out of order removes exactly one
    inversion. *)
Lemma inversions_swap p a b s :
  (frame_id a > frame_id b)%Z →
  inversions (p ++ a :: b :: s) = S (inversions (p ++ b :: a :: s)).
Proof.
  intros Hab. rewrite !inversions_app.
  assert (foldr (λ x n, smaller x (a :: b :: s) + n) 0 p
          = foldr (λ x n, smaller x (b :: a :: s) + n) 0 p) as ->.
  { induction p as [|x p IH]; [done|]. cbn [foldr]. rewrite IH. f_equal.
    rewrite !smaller_cons. lia. }
  cbn [inversions]. rewrite !smaller_cons.
  rewrite bool_decide_eq_true_2 by lia.
  rewrite bool_decide_eq_false_2 by lia. lia.
Qed.

(** What one execution of the body does to the measure. *)
Lemma sort_body_measure msgs i :
  match sort_body msgs i with
  | Ok (msgs', i') =>
      (msgs' = msgs ∧ i' = i + 1)
      ∨ (S (inversions msgs') = inversions msgs ∧ msgs' ≡ₚ msgs ∧ i' = 1)
  | Raise _ => sort_guard msgs i = false
  end.
Proof.
  destruct (sort_body msgs i) as [[msgs' i']|e] eqn:Hb;
    [|by eapply sort_body_raise].
  destruct (decide (i + 1 < length msgs)) as [Hi|Hi].
  - destruct (sort_body_spec msgs i Hi) as (p & a & b & s & E & _ & Hb').
    rewrite Hb in Hb'. case_bool_decide as Hab; simplify_eq; [right|by left].
    split; [by rewrite (inversions_swap _ _ _ _ Hab)|].
    split; [apply Permutation_app_head, perm_swap|done].
  - unfold sort_body, getitem in Hb.
    destruct (msgs !! i) as [a|]; [|done]. simpl in Hb.
    rewrite (lookup_ge_None_2 msgs (i + 1)) in Hb by lia. done.
Qed.

Lemma sort_loop_enough fuel : ∀ msgs i,
  inversions msgs * S (length msgs) + (length msgs - i) < fuel →
  ∃ r, sort_loop fuel msgs i = Done r ∧ r ≡ₚ msgs.
Proof.
  induction fuel as [|fuel IH]; intros msgs i Hf; [lia|].
  cbn [sort_loop]. destruct (sort_guard msgs i) eqn:Hg; [|by eexists].
  assert (Hm := sort_body_measure msgs i).
  destruct (sort_body msgs i) as [[msgs' i']|e]; [|congruence].
  apply sort_guard_spec in Hg.
  destruct Hm as [[-> ->]|(Hinv & Hperm & ->)].
  - destruct (IH msgs (i + 1)) as (r & Hr & Hrp); [nia|]. by exists r.
  - destruct (IH msgs' 1) as (r & Hr & Hrp).
    { rewrite (Permutation_length Hperm). nia. }
    exists r. split; [done|]. by rewrite Hrp.
Qed.

Lemma sort_loop_more fuel : ∀ msgs i r k,
  sort_loop fuel msgs i = Done r → sort_loop (fuel + k) msgs i = Done r.
Proof.
  induction fuel as [|fuel IH]; intros msgs i r k; [done|].
  cbn [sort_loop Nat.add]. destruct (sort_guard msgs i); [|done].
  destruct (sort_body msgs i) as [[msgs' i']|]; [|done]. apply IH.
Qed.

Lemma sort_loop_sort_fuel msgs :
  sort_loop (sort_fuel msgs) msgs 0 = Done (sort_messages_by_CAN_id msgs).
Proof.
  unfold sort_messages_by_CAN_id.
  destruct (sort_loop_enough (sort_fuel msgs) msgs 0) as (r & -> & _); [|done].
  unfold sort_fuel. lia.
Qed.

Lemma sort_loop_perm msgs : sort_messages_by_CAN_id msgs ≡ₚ msgs.
Proof.
  destruct (sort_loop_enough (sort_fuel msgs) msgs 0) as (r & Hr & Hp).
  { unfold sort_fuel. lia. }
  rewrite sort_loop_sort_fuel in Hr. by simplify_eq.
Qed.

End sort_facts.

(** C9. [sort_messages_by_CAN_id] terminates on every list. The loop,
    started at index 0, ends normally (no exception, fuel left) within
    [sort_fuel msgs] iterations and more fuel does not change its result.
    The bound counts the inversions of the list: an execution of the body
    either moves the index on by one, or swaps two neighbours, which
    removes exactly one inversion, and goes back to index 1. *)
Theorem sort_terminates (msgs : list Message) (k i : nat) :
  sort_loop (sort_fuel msgs + k) msgs 0 = Done (sort_messages_by_CAN_id msgs)
  ∧ match sort_body msgs i with
    | Ok (msgs', i') =>
        (msgs' = msgs ∧ i' = i + 1)
        ∨ (S (inversions msgs') = inversions msgs ∧ msgs' ≡ₚ msgs ∧ i' = 1)
    | Raise _ => sort_guard msgs i = false
    end.
Proof.
  split; [apply sort_loop_more, sort_loop_sort_fuel|apply sort_body_measure].
Qed.

(** C8. The list returned by [sort_messages_by_CAN_id] is a permutation
    of its argument. *)
Theorem sort_permutation (msgs : list Message) :
  sort_messages_by_CAN_id msgs ≡ₚ msgs.
Proof. apply sort_loop_perm. Qed.

(** ** [messages_from_a_to_b] *)

Section filter_facts.
Implicit Types (messages : list Message) (msg : Message).
Implicit Types (senders receivers : list string).

Lemma py_in_spec (x : string) (l : list string) : py_in x l = true ↔ x ∈ l.
Proof. unfold py_in. apply bool_decide_eq_true. Qed.

Lemma any_map_spec {A} (f : A → bool) (l : list A) :
  any (map f l) = true ↔ ∃ x, x ∈ l ∧ f x = true.
Proof.
  unfold any. rewrite existsb_exists. split.
  - intros (b & Hb & Hid). apply in_map_iff in Hb as (x & <- & Hx).
    exists x. by rewrite list_elem_of_In.
  - intros (x & Hx & Hf). exists (f x). split; [|done].
    apply in_map_iff. exists x. by rewrite <- list_elem_of_In.
Qed.

Lemma any_map_existsb {A} (f : A → bool) (l : list A) :
  any (map f l) = existsb f l.
Proof. unfold any. induction l as [|x l IH]; simpl; [done|]. by rewrite IH. Qed.

Lemma received_by_spec receiver msg :
  received_by receiver msg = true ↔
  ∃ sig, sig ∈ msg_signals msg ∧ receiver ∈ sig_receivers sig.
Proof.
  unfold received_by. rewrite any_map_spec.
  by setoid_rewrite py_in_spec.
Qed.

Lemma qualifiesb_spec senders receivers msg :
  qualifiesb senders receivers msg = true ↔ qualifies senders receivers msg.
Proof.
  unfold qualifiesb, qualifies.
  rewrite andb_true_iff, <- !any_map_existsb, !any_map_spec.
  setoid_rewrite py_in_spec. by setoid_rewrite received_by_spec.
Qed.

Lemma hits_pos receivers msg :
  0 < hits receivers msg ↔ existsb (λ r, received_by r msg) receivers = true.
Proof.
  unfold hits. induction receivers as [|r receivers IH]; simpl; [lia|].
  destruct (received_by r msg); simpl; [lia|done].
Qed.

(** The inner loop appends [msg] once per matching entry of [receivers]. *)
Lemma inner_loop msg receivers : ∀ acc,
  foldl (λ matching_messages receiver,
           if received_by receiver msg
           then matching_messages ++ [msg] else matching_messages)
        acc receivers
  = acc ++ replicate (hits receivers msg) msg.
Proof.
  unfold hits.
  induction receivers as [|r receivers IH]; intros acc; simpl.
  - by rewrite app_nil_r.
  - rewrite IH. destruct (received_by r msg); simpl; [|done].
    by rewrite <- app_assoc.
Qed.

(** The result, as one expression. *)
Lemma messages_from_a_to_b_eq messages senders receivers :
  messages_from_a_to_b messages senders receivers
  = msgs_to_search messages senders ≫=
      (λ msg, replicate (hits receivers msg) msg).
Proof.
  unfold messages_from_a_to_b.
  generalize (msgs_to_search messages senders) as l.
  assert (∀ l acc,
    foldl (λ matching_messages msg,
             foldl (λ matching_messages receiver,
                      if received_by receiver msg
                      then matching_messages ++ [msg] else matching_messages)
                   matching_messages receivers) acc l
    = acc ++ (l ≫= (λ msg, replicate (hits receivers msg) msg))) as H.
  { induction l as [|msg l IH]; intros acc; simpl.
    - by rewrite app_nil_r.
    - rewrite inner_loop, IH. by rewrite <- app_assoc. }
  intros l. by rewrite H.
Qed.

Lemma msgs_to_search_eq messages senders :
  msgs_to_search messages senders
  = List.filter (λ msg, existsb (λ s, py_in s (msg_senders msg)) senders)
      messages.
Proof.
  unfold msgs_to_search. apply List.filter_ext.
  intros msg. apply any_map_existsb.
Qed.

Lemma occurrences_app msg (l1 l2 : list Message) :
  occurrences msg (l1 ++ l2) = occurrences msg l1 + occurrences msg l2.
Proof. unfold occurrences. by rewrite List.filter_app, length_app. Qed.

Lemma occurrences_replicate msg x n :
  occurrences msg (replicate n x) = if bool_decide (x = msg) then n else 0.
Proof.
  unfold occurrences. induction n as [|n IH]; simpl.
  - by case_bool_decide.
  - case_bool_decide; simpl; by rewrite IH.
Qed.

Lemma occurrences_cons msg x (l : list Message) :
  occurrences msg (x :: l)
  = (if bool_decide (x = msg) then 1 else 0) + occurrences msg l.
Proof. unfold occurrences. simpl. by case_bool_decide. Qed.

Lemma occurrences_bind msg receivers (l : list Message) :
  occurrences msg (l ≫= (λ m, replicate (hits receivers m) m))
  = occurrences msg l * hits receivers msg.
Proof.
  induction l as [|x l IH]; [done|].
  rewrite bind_cons, occurrences_app, occurrences_replicate, occurrences_cons, IH.
  case_bool_decide; [subst x|]; lia.
Qed.

Lemma occurrences_filter msg (f : Message → bool) (l : list Message) :
  occurrences msg (List.filter f l) = if f msg then occurrences msg l else 0.
Proof.
  induction l as [|x l IH]; simpl; [by destruct (f msg)|].
  destruct (f x) eqn:Hx; rewrite !occurrences_cons, ?IH;
    case_bool_decide; simplify_eq; destruct (f msg); done.
Qed.

(** The value of the function: the qualifying messages in input order,
    each followed at once by its further copies. *)
Lemma messages_from_a_to_b_exact messages senders receivers :
  messages_from_a_to_b messages senders receivers
  = List.filter (qualifiesb senders receivers) messages ≫=
      (λ msg, replicate (hits receivers msg) msg).
Proof.
  rewrite messages_from_a_to_b_eq, msgs_to_search_eq. unfold qualifiesb.
  induction messages as [|x messages IH]; [done|]. cbn [List.filter].
  destruct (existsb _ senders); cbn [andb]; [|apply IH].
  assert (Hh := hits_pos receivers x).
  destruct (existsb _ receivers).
  - by rewrite !bind_cons, IH.
  - rewrite bind_cons, IH.
    destruct (hits receivers x) as [|n]; [done|].
    assert (0 < S n) as Hp by lia. by apply Hh in Hp.
Qed.

End filter_facts.

(** C5, as the code has it. [messages_from_a_to_b] returns the
    qualifying messages of its input in input order, each occurrence
    as many times in a row as there are entries of the receiver-name
    list found among the receivers of its signals. So a message is in
    the result exactly when it is in the input and qualifies, and it
    occurs there as often as in the input times its number of matching
    receiver entries. Called with a single receiver name, as
    [get_edges] does, it returns every qualifying message once, in input
    order. *)
Theorem messages_from_a_to_b_multiplicity
    (messages : list Message) (senders receivers : list string) :
  messages_from_a_to_b messages senders receivers
  = List.filter (qualifiesb senders receivers) messages ≫=
      (λ msg, replicate (hits receivers msg) msg)
  ∧ (∀ msg, msg ∈ messages_from_a_to_b messages senders receivers
            ↔ msg ∈ messages ∧ qualifies senders receivers msg)
  ∧ (∀ msg, occurrences msg (messages_from_a_to_b messages senders receivers)
            = if qualifiesb senders receivers msg
              then occurrences msg messages * hits receivers msg else 0)
  ∧ (∀ receiver, messages_from_a_to_b messages senders [receiver]
                 = List.filter (qualifiesb senders [receiver]) messages).
Proof.
  split; [apply messages_from_a_to_b_exact|].
  rewrite !messages_from_a_to_b_eq, !msgs_to_search_eq.
  split; [|split].
  - intros msg. rewrite list_elem_of_bind, <- qualifiesb_spec.
    unfold qualifiesb. rewrite andb_true_iff, <- hits_pos. split.
    + intros (x & Hx & Hin). apply elem_of_replicate in Hx as [-> Hn].
      apply list_elem_of_In, filter_In in Hin as [Hin Hs].
      rewrite list_elem_of_In. split_and!; [done..|lia].
    + intros (Hin & Hs & Hn). exists msg. split.
      * apply elem_of_replicate. split; [done|lia].
      * apply list_elem_of_In, filter_In. by rewrite <- list_elem_of_In.
  - intros msg. rewrite occurrences_bind, occurrences_filter.
    unfold qualifiesb. destruct (existsb _ senders); simpl; [|done].
    assert (Hh := hits_pos receivers msg).
    destruct (existsb _ receivers); [done|].
    destruct (hits receivers msg) as [|n]; [lia|].
    assert (0 < S n) as Hp by lia. by apply Hh in Hp.
  - intros receiver. rewrite messages_from_a_to_b_eq, msgs_to_search_eq.
    unfold qualifiesb, hits. simpl.
    induction messages as [|x messages IH]; simpl; [done|].
    destruct (existsb _ senders); simpl; [|apply IH].
    rewrite orb_false_r.
    destruct (received_by receiver x); simpl; [f_equal|]; apply IH.
Qed.

(** C5, as stated, fails: with two matching receiver names the one
    qualifying message is returned twice. *)
Lemma messages_from_a_to_b_twice :
  qualifies ["A"%string] ["B"%string; "C"%string] msg_ABC
  ∧ occurrences msg_ABC [msg_ABC] = 1
  ∧ messages_from_a_to_b [msg_ABC] ["A"%string] ["B"%string; "C"%string]
    = [msg_ABC; msg_ABC]
  ∧ occurrences msg_ABC
      (messages_from_a_to_b [msg_ABC] ["A"%string] ["B"%string; "C"%string])
    ≠ 1.
Proof.
  split; [|split; [|split]]; [|reflexivity..|by vm_compute].
  apply qualifiesb_spec. reflexivity.
Qed.

(** ** What the sort leaves in order *)

(** Invariant of the loop: the neighbours from index 1 up to the scan
    index are in ascending order. A swap sends the scan back to index 1,
    so the pair at indices 0 and 1 is looked at only once, before the
    first swap. *)
Lemma sort_loop_middle fuel : ∀ (msgs : list Message) (i : nat) r,
  sort_loop fuel msgs i = Done r →
  (∀ j a b, 1 ≤ j < i → msgs !! j = Some a → msgs !! (j + 1) = Some b →
            (frame_id a ≤ frame_id b)%Z) →
  ∀ j a b, 1 ≤ j → j + 2 < length r →
           r !! j = Some a → r !! (j + 1) = Some b →
           (frame_id a ≤ frame_id b)%Z.
Proof.
  induction fuel as [|fuel IH]; intros msgs i r Hrun Hinv; [done|].
  cbn [sort_loop] in Hrun. destruct (sort_guard msgs i) eqn:Hg.
  - apply sort_guard_spec in Hg.
    destruct (sort_body_spec msgs i) as (p & x & y & s & E & Hp & Hb); [lia|].
    rewrite Hb in Hrun. case_bool_decide as Hxy.
    + apply (IH _ _ _ Hrun). intros; lia.
    + apply (IH _ _ _ Hrun). intros j a b Hj Ha Hb'.
      destruct (decide (j < i)) as [Hlt|Hge]; [eapply (Hinv j); [lia|done..]|].
      assert (j = i) as -> by lia.
      rewrite E in Ha, Hb'.
      rewrite lookup_app_r in Ha by lia.
      rewrite lookup_app_r in Hb' by lia.
      replace (i - length p) with 0 in Ha by lia.
      replace (i + 1 - length p) with 1 in Hb' by lia.
      simplify_eq/=. lia.
  - simplify_eq. unfold sort_guard in Hg. apply bool_decide_eq_false in Hg.
    intros j a b Hj Hlen Ha Hb. eapply (Hinv j); [lia|done..].
Qed.

(** In the returned list every pair of neighbours is in ascending order,
    except possibly the first pair and the last pair. *)
Lemma sort_middle_sorted (msgs : list Message) (j : nat) (a b : Message) :
  1 ≤ j → j + 2 < length msgs →
  sort_messages_by_CAN_id msgs !! j = Some a →
  sort_messages_by_CAN_id msgs !! (j + 1) = Some b →
  (frame_id a ≤ frame_id b)%Z.
Proof.
  intros Hj Hlen. rewrite <- (Permutation_length (sort_loop_perm msgs)) in Hlen.
  eapply (sort_loop_middle _ _ _ _ (sort_loop_sort_fuel msgs)); [|done..].
  intros; lia.
Qed.

(** C4 at a list of four messages in descending order. The scan swaps
    the pairs at indices 0 and 1, restarts at index 1, and never returns
    to index 0: the result begins with 2, 1, a pair out of order that
    does not involve the final element. *)
Theorem sort_descending_four :
  map frame_id (sort_messages_by_CAN_id (map msg_AB [3; 2; 1; 0]%Z))
  = [2; 1; 3; 0]%Z.
Proof. reflexivity. Qed.

(** ** [get_edges] *)

Section edge_facts.
Implicit Types (db : Database) (senders receivers : list string).

(** The three nested loops, as one expression. *)
Lemma get_edges_eq db senders receivers :
  (get_edges db senders receivers).1
  = senders ≫= (λ sender, receivers ≫= (λ receiver,
      (λ msg, (sender, receiver, msg)) <$>
        messages_from_a_to_b (sort_messages_by_CAN_id (db_messages db))
          [sender] [receiver])).
Proof.
  unfold get_edges. cbn [fst].
  generalize (sort_messages_by_CAN_id (db_messages db)) as sorted.
  intros sorted.
  assert (Hmsg : ∀ (sender receiver : string) (l : list Message) (acc : list Edge),
    foldl (λ edges msg, edges ++ [(sender, receiver, msg)]) acc l
    = acc ++ ((λ msg, (sender, receiver, msg)) <$> l)).
  { intros sender receiver. induction l as [|m l IH]; intros acc; simpl.
    - by rewrite app_nil_r.
    - by rewrite IH, <- app_assoc. }
  assert (Hrcv : ∀ (sender : string) (l : list string) (acc : list Edge),
    foldl (λ edges receiver,
             foldl (λ edges msg, edges ++ [(sender, receiver, msg)]) edges
               (messages_from_a_to_b sorted [sender] [receiver])) acc l
    = acc ++ (l ≫= (λ receiver, (λ msg, (sender, receiver, msg)) <$>
                      messages_from_a_to_b sorted [sender] [receiver]))).
  { intros sender. induction l as [|r l IH]; intros acc.
    - simpl. by rewrite app_nil_r.
    - cbn [foldl]. rewrite Hmsg, IH, bind_cons. by rewrite <- app_assoc. }
  assert (Hsnd : ∀ (l : list string) (acc : list Edge),
    foldl (λ edges sender,
             foldl (λ edges receiver,
                      foldl (λ edges msg, edges ++ [(sender, receiver, msg)])
                        edges
                        (messages_from_a_to_b sorted [sender] [receiver]))
               edges receivers) acc l
    = acc ++ (l ≫= (λ sender, receivers ≫= (λ receiver,
                (λ msg, (sender, receiver, msg)) <$>
                  messages_from_a_to_b sorted [sender] [receiver])))).
  { induction l as [|x l IH]; intros acc.
    - simpl. by rewrite app_nil_r.
    - cbn [foldl]. rewrite Hrcv, IH, bind_cons. by rewrite <- app_assoc. }
  by rewrite Hsnd.
Qed.

(** The call leaves the database with its messages reordered. *)
Lemma get_edges_db db senders receivers :
  (get_edges db senders receivers).2
  = mkDatabase (db_nodes db) (sort_messages_by_CAN_id (db_messages db)).
Proof. reflexivity. Qed.

End edge_facts.

(** C10. With an empty sender list or an empty receiver list [get_edges]
    returns no edge, whatever the database holds: the body of the
    innermost loop, the only place that queries the messages, runs once
    per pair of the Cartesian product, which is empty. *)
Theorem get_edges_empty_names
    (db : Database) (senders receivers : list string) :
  senders = [] ∨ receivers = [] →
  (get_edges db senders receivers).1 = [].
Proof.
  intros H. rewrite get_edges_eq. destruct H as [-> | ->]; [done|].
  induction senders as [|s senders IH]; [done|].
  rewrite bind_cons, IH. done.
Qed.

Lemma get_edges_empty_names_witness :
  (get_edges db_descending ["A"%string; "B"%string] []).1 = [].
Proof. apply get_edges_empty_names. right. reflexivity. Defined.

(** Two successive calls on one database object, four messages in
    descending order. The first call leaves [db.messages] as 2, 1, 3, 0;
    the second call finds that other state, sorts again, now swaps the
    first pair, and returns its edges in another order. *)
Theorem get_edges_twice_differ :
  let first := get_edges db_descending ["A"%string] ["B"%string] in
  let second := get_edges first.2 ["A"%string] ["B"%string] in
  map (λ e, frame_id (edge_msg e)) first.1 = [2; 1; 3; 0]%Z
  ∧ map (λ e, frame_id (edge_msg e)) second.1 = [1; 2; 3; 0]%Z
  ∧ first.1 ≠ second.1.
Proof.
  split; [reflexivity|]. split; [reflexivity|].
  intros H. apply (f_equal (map (λ e, frame_id (edge_msg e)))) in H.
  vm_compute in H. discriminate H.
Qed.

(** ** Colours *)

(** C2 at its own example, identifiers 0x100 to 0x200. A channel equal
    to zero is written as the single digit [0], so the two end points get
    six-character strings, where the specification's formula gives
    [#ff0000] and [#0000ff]; at identifier 0x12c the blue channel
    43.83 is cut to [2b], where rounding gives [2c]. *)
Theorem color_endpoints_unpadded :
  color_str_for_msg (msg_AB 0x100) 0x100 0x200 = Ok "#ff000"%string
  ∧ spec_color (msg_AB 0x100) 0x100 0x200 = "#ff0000"%string
  ∧ color_str_for_msg (msg_AB 0x200) 0x100 0x200 = Ok "#000ff"%string
  ∧ spec_color (msg_AB 0x200) 0x100 0x200 = "#0000ff"%string
  ∧ color_str_for_msg (msg_AB 0x12c) 0x100 0x200 = Ok "#d3002b"%string
  ∧ spec_color (msg_AB 0x12c) 0x100 0x200 = "#d3002c"%string.
Proof. repeat apply conj; vm_compute; reflexivity. Qed.

(** With a single identifier in the edge list the range is zero and
    every edge gets the middle colour. *)
Example color_single_id :
  color_str_for_msg (msg_AB 7) 7 7 = Ok "#7f007f"%string.
Proof. vm_compute. reflexivity. Qed.

(** ** Node selection *)

Section selection_facts.
Implicit Types (all_nodes nodes senders receivers ignore : list string).

Lemma list_set_spec (l : list string) (n : string) : n ∈ list_set l ↔ n ∈ l.
Proof. unfold list_set. by rewrite elem_of_elements, elem_of_list_to_set. Qed.

Lemma get_node_names_spec (db : Database) (n : string) :
  n ∈ get_node_names db ↔ ∃ node, node ∈ db_nodes db ∧ node_name node = n.
Proof.
  unfold get_node_names. rewrite list_set_spec, list_elem_of_fmap.
  naive_solver.
Qed.

Lemma filter_not_in (l ignore : list string) (n : string) :
  n ∈ List.filter (λ n, negb (py_in n ignore)) l ↔ n ∈ l ∧ n ∉ ignore.
Proof.
  rewrite list_elem_of_In, filter_In, <- list_elem_of_In, negb_true_iff.
  unfold py_in. by rewrite bool_decide_eq_false.
Qed.

(** The validation of [main] lets the run go on exactly when every
    requested name is a known node. *)
Lemma nonexistent_nil (l all_nodes : list string) :
  List.filter (λ n, negb (py_in n all_nodes)) l = [] ↔ ∀ n, n ∈ l → n ∈ all_nodes.
Proof.
  split.
  - intros H n Hn. destruct (decide (n ∈ all_nodes)) as [|Hno]; [done|].
    assert (n ∈ List.filter (λ n, negb (py_in n all_nodes)) l) as Hf
      by (by apply filter_not_in).
    rewrite H in Hf. by apply elem_of_nil in Hf.
  - intros H. induction l as [|x l IH]; simpl; [done|].
    rewrite (proj2 (py_in_spec x all_nodes)) by (apply H; left). simpl.
    apply IH. intros n Hn. apply H. by right.
Qed.


End selection_facts.



(** ** [main] *)

Section main_facts.
Variables (env : Env) (dbc_filename : string).
Variables (nodes senders receivers ignore : list string) (output_dir : string).

Let db := load_file env dbc_filename.
Let requested := nodes ++ senders ++ receivers ++ ignore.

Lemma main_no_nodes :
  get_node_names db = [] →
  main env dbc_filename nodes senders receivers ignore output_dir
  = mkMainRun [NoNodesLine] db Returned.
Proof. intros H. unfold main. fold db. by rewrite H. Qed.

Lemma main_unknown_names :
  get_node_names db ≠ [] →
  List.filter (λ n, negb (py_in n (get_node_names db))) requested ≠ [] →
  main env dbc_filename nodes senders receivers ignore output_dir
  = mkMainRun
      [NotFoundLine
         (List.filter (λ n, negb (py_in n (get_node_names db))) requested)
         dbc_filename;
       NodesInFileLine (get_node_names db)]
      db Returned.
Proof.
  intros Hne Hbad. unfold main. fold db. fold requested.
  rewrite bool_decide_eq_false_2 by done.
  destruct (List.filter _ requested); done.
Qed.

(** Past the validation, [main] computes the edges and calls [dbcview]
    whether or not there are any. *)
Lemma main_valid :
  get_node_names db ≠ [] →
  List.filter (λ n, negb (py_in n (get_node_names db))) requested = [] →
  let sel := select_nodes (get_node_names db) nodes senders receivers ignore in
  let got := get_edges db sel.1 sel.2 in
  main env dbc_filename nodes senders receivers ignore output_dir
  = mkMainRun
      (if negb (truthy got.1) then [NoEdgesLine sel.1 sel.2] else [])
      got.2
      (match dbcview
               (graph_title (path_stem env dbc_filename) senders receivers)
               got.1
               (if isdir env output_dir then output_dir else tmpdir env)
       with
       | Ok a => Viewed a
       | Raise e => Uncaught e
       end).
Proof.
  intros Hne Hok sel got. unfold main. fold db. fold requested.
  rewrite bool_decide_eq_false_2 by done. rewrite Hok. cbn [truthy].
  fold sel. destruct sel as [all_senders all_receievers] eqn:Hsel.
  cbn [fst snd] in got. fold got.
  destruct got as [edges db'] eqn:Hgot. cbn [fst snd].
  by destruct (dbcview _ edges _).
Qed.

End main_facts.

Lemma dbcview_empty (graph_name output_dir : string) :
  dbcview graph_name [] output_dir = Raise ValueError.
Proof. reflexivity. Qed.

(** Whenever the run gets past the validation and finds no edge, it
    prints the line about it and then ends in [ValueError]. *)
Lemma main_no_edges (env : Env) (dbc_filename : string)
    (nodes senders receivers ignore : list string) (output_dir : string) :
  let db := load_file env dbc_filename in
  let sel := select_nodes (get_node_names db) nodes senders receivers ignore in
  get_node_names db ≠ [] →
  List.filter (λ n, negb (py_in n (get_node_names db)))
    (nodes ++ senders ++ receivers ++ ignore) = [] →
  (get_edges db sel.1 sel.2).1 = [] →
  let r := main env dbc_filename nodes senders receivers ignore output_dir in
  stdout r = [NoEdgesLine sel.1 sel.2] ∧ ended r = Uncaught ValueError.
Proof.
  intros db sel Hne Hok Hnone r. subst r.
  rewrite main_valid by done. fold db. fold sel. rewrite Hnone.
  by rewrite dbcview_empty.
Qed.

(** C1 at a database with nodes [A] and [B] and no message, run without
    filters: the line "No edges found" is printed, then [dbcview] takes
    the minimum of the empty list and the [ValueError] leaves [main]. *)
Theorem main_no_edges_uncaught :
  main (env_of db_silent) "bus.dbc" [] [] [] [] ""
  = mkMainRun [NoEdgesLine ["A"; "B"]%string ["A"; "B"]%string]
      db_silent (Uncaught ValueError).
Proof. vm_compute. reflexivity. Qed.

(** C6. If the database declares no node, or some name given in
    [nodes], [senders], [receivers] or [ignore] is not one of its node
    names, [main] returns early: no exception, no graph, the database
    untouched (no edge computation ran). With no node it prints the
    "No nodes found" line; otherwise it prints one line holding exactly
    the requested names that are not known, followed by one line
    holding the database's node names. *)
Theorem main_invalid_returns (env : Env) (dbc_filename : string)
    (nodes senders receivers ignore : list string) (output_dir : string) :
  let db := load_file env dbc_filename in
  let requested := nodes ++ senders ++ receivers ++ ignore in
  (get_node_names db = [] ∨ ∃ n, n ∈ requested ∧ n ∉ get_node_names db) →
  let r := main env dbc_filename nodes senders receivers ignore output_dir in
  ended r = Returned
  ∧ db_after r = db
  ∧ (if bool_decide (get_node_names db = [])
     then stdout r = [NoNodesLine]
     else ∃ nonexistent_nodes,
         stdout r = [NotFoundLine nonexistent_nodes dbc_filename;
                     NodesInFileLine (get_node_names db)]
         ∧ (∀ n, n ∈ nonexistent_nodes ↔ n ∈ requested ∧ n ∉ get_node_names db)
         ∧ (∀ n, n ∈ get_node_names db
                 ↔ ∃ node, node ∈ db_nodes db ∧ node_name node = n)).
Proof.
  intros db requested H r. subst r.
  case_bool_decide as Hnil.
  - subst db. by rewrite main_no_nodes.
  - destruct H as [H|(n & Hn & Hbad)]; [done|].
    assert (Hf : ∀ m, m ∈ List.filter (λ n, negb (py_in n (get_node_names db)))
                               requested
                      ↔ m ∈ requested ∧ m ∉ get_node_names db)
      by (intros m; apply filter_not_in).
    subst db requested. rewrite main_unknown_names; [|done|].
    + split_and!; [done..|]. eexists. split_and!; [done|done|].
      apply get_node_names_spec.
    + intros E. specialize (Hf n). rewrite E in Hf.
      destruct Hf as [_ Hf]. by apply elem_of_nil in Hf.
Qed.

Lemma main_invalid_returns_witness :
  let r := main (env_of db_three) "bus.dbc" [] ["D"%string] [] [] "" in
  ended r = Returned
  ∧ db_after r = db_three
  ∧ ∃ nonexistent_nodes,
      stdout r = [NotFoundLine nonexistent_nodes "bus.dbc";
                  NodesInFileLine (get_node_names db_three)]
      ∧ (∀ n, n ∈ nonexistent_nodes
              ↔ n ∈ [] ++ ["D"%string] ++ [] ++ [] ∧ n ∉ get_node_names db_three)
      ∧ (∀ n, n ∈ get_node_names db_three
              ↔ ∃ node, node ∈ db_nodes db_three ∧ node_name node = n).
Proof.
  apply (main_invalid_returns (env_of db_three) "bus.dbc" [] ["D"%string] [] [] "").
  right. exists "D"%string. split; [by left|].
  intros Hin. apply list_elem_of_In in Hin. vm_compute in Hin.
  decompose [or] Hin; discriminate || contradiction.
Defined.

(** ** More on the sort loop *)

Section sort_more.
Implicit Types (msgs p s l m : list Message) (a b x z : Message) (i j : nat).

Lemma lookup_pair p a b s :
  (p ++ a :: b :: s) !! length p = Some a
  ∧ (p ++ a :: b :: s) !! (length p + 1) = Some b.
Proof.
  split.
  - by rewrite lookup_app_r, Nat.sub_diag by lia.
  - rewrite lookup_app_r by lia. by replace (length p + 1 - length p) with 1 by lia.
Qed.

(** A pair strictly inside a list that ends in [z] leaves [z] behind it. *)
Lemma split_last p a b s l z :
  p ++ a :: b :: s = l ++ [z] → length p + 2 < length (l ++ [z]) →
  ∃ s', s = s' ++ [z] ∧ l = p ++ a :: b :: s'.
Proof.
  intros E Hlen. rewrite <- E in Hlen. rewrite length_app in Hlen. simpl in Hlen.
  destruct (decide (s = [])) as [->|Hs]; [simpl in Hlen; lia|].
  destruct (exists_last Hs) as (s' & y & ->).
  replace (p ++ a :: b :: s' ++ [y]) with ((p ++ a :: b :: s') ++ [y]) in E
    by by rewrite <- app_assoc.
  apply app_inj_tail in E as [<- <-]. by exists s'.
Qed.

(** The loop never moves the final element. *)
Lemma sort_loop_last fuel : ∀ l z i r,
  sort_loop fuel (l ++ [z]) i = Done r → ∃ l', r = l' ++ [z] ∧ l' ≡ₚ l.
Proof.
  induction fuel as [|fuel IH]; intros l z i r Hrun; [done|].
  cbn [sort_loop] in Hrun. destruct (sort_guard _ i) eqn:Hg;
    [|simplify_eq; by exists l].
  apply sort_guard_spec in Hg.
  destruct (sort_body_spec (l ++ [z]) i) as (p & a & b & s & E & Hp & Hb); [lia|].
  rewrite Hb in Hrun. symmetry in E.
  destruct (split_last _ _ _ _ _ _ E) as (s' & -> & ->); [lia|].
  case_bool_decide; [|by apply IH in Hrun].
  replace (p ++ b :: a :: s' ++ [z]) with ((p ++ b :: a :: s') ++ [z]) in Hrun
    by by rewrite <- app_assoc.
  apply IH in Hrun as (l' & -> & Hl'). exists l'. split; [done|].
  rewrite Hl'. apply Permutation_app_head, perm_swap.
Qed.

(** From index 1 on, the loop moves neither the first nor the final
    element. *)
Lemma sort_loop_inner fuel : ∀ x m z i r,
  1 ≤ i → sort_loop fuel (x :: m ++ [z]) i = Done r →
  ∃ m', r = x :: m' ++ [z] ∧ m' ≡ₚ m.
Proof.
  induction fuel as [|fuel IH]; intros x m z i r Hi Hrun; [done|].
  cbn [sort_loop] in Hrun. destruct (sort_guard _ i) eqn:Hg;
    [|simplify_eq; by exists m].
  apply sort_guard_spec in Hg.
  destruct (sort_body_spec (x :: m ++ [z]) i) as (p & a & b & s & E & Hp & Hb);
    [lia|].
  rewrite Hb in Hrun. symmetry in E.
  destruct (split_last p a b s (x :: m) z) as (s' & -> & Em); [done|simpl in *; lia|].
  destruct p as [|x' p]; [simpl in Hp; lia|]. simplify_eq/=.
  case_bool_decide; [|apply IH in Hrun; [done|lia]].
  replace (x' :: p ++ b :: a :: s' ++ [z])
    with (x' :: (p ++ b :: a :: s') ++ [z]) in Hrun
    by by rewrite <- app_assoc.
  apply IH in Hrun as (m' & -> & Hm'); [|lia]. exists m'. split; [done|].
  rewrite Hm'. apply Permutation_app_head, perm_swap.
Qed.

(** A run never adds inversions. *)
Lemma sort_loop_inversions fuel : ∀ msgs i r,
  sort_loop fuel msgs i = Done r → inversions r ≤ inversions msgs.
Proof.
  induction fuel as [|fuel IH]; intros msgs i r Hrun; [done|].
  cbn [sort_loop] in Hrun. destruct (sort_guard msgs i); [|by simplify_eq].
  assert (Hm := sort_body_measure msgs i).
  destruct (sort_body msgs i) as [[msgs' i']|]; [|done].
  apply IH in Hrun. destruct Hm as [[-> _]|(Hinv & _)]; lia.
Qed.

(** With the pairs from the scan index on in order, the loop changes
    nothing. *)
Lemma sort_loop_fix fuel : ∀ msgs i r,
  (∀ j a b, i ≤ j → j + 2 < length msgs →
            msgs !! j = Some a → msgs !! (j + 1) = Some b →
            (frame_id a ≤ frame_id b)%Z) →
  sort_loop fuel msgs i = Done r → r = msgs.
Proof.
  induction fuel as [|fuel IH]; intros msgs i r Hasc Hrun; [done|].
  cbn [sort_loop] in Hrun. destruct (sort_guard msgs i) eqn:Hg; [|by simplify_eq].
  apply sort_guard_spec in Hg.
  destruct (sort_body_spec msgs i) as (p & a & b & s & E & Hp & Hb); [lia|].
  rewrite Hb in Hrun.
  destruct (lookup_pair p a b s) as [Ha Hb']. rewrite <- E, Hp in Ha, Hb'.
  assert (frame_id a ≤ frame_id b)%Z by (eapply (Hasc i); [lia|lia|done|done]).
  rewrite bool_decide_eq_false_2 in Hrun by lia.
  eapply IH; [|done]. intros j a' b' Hj. apply Hasc. lia.
Qed.

(** A run that returns its input made no swap: it found every pair from
    the scan index on in order. *)
Lemma sort_loop_same fuel : ∀ msgs i,
  sort_loop fuel msgs i = Done msgs →
  ∀ j a b, i ≤ j → j + 2 < length msgs →
           msgs !! j = Some a → msgs !! (j + 1) = Some b →
           (frame_id a ≤ frame_id b)%Z.
Proof.
  induction fuel as [|fuel IH]; intros msgs i Hrun; [done|].
  cbn [sort_loop] in Hrun. destruct (sort_guard msgs i) eqn:Hg.
  - apply sort_guard_spec in Hg.
    destruct (sort_body_spec msgs i) as (p & a & b & s & E & Hp & Hb); [lia|].
    rewrite Hb in Hrun. case_bool_decide as Hab.
    + apply sort_loop_inversions in Hrun.
      rewrite E in Hrun at 1. rewrite (inversions_swap p a b s Hab) in Hrun. lia.
    + intros j a' b' Hj Hlen Ha' Hb'.
      destruct (decide (j = i)) as [->|Hne].
      * destruct (lookup_pair p a b s) as [Ha Hb2].
        rewrite <- E, Hp in Ha, Hb2. simplify_eq. lia.
      * eapply (IH _ _ Hrun j); [lia|done..].
  - unfold sort_guard in Hg. apply bool_decide_eq_false in Hg.
    intros j a b Hj Hlen. lia.
Qed.

(** From the second element on, ascending neighbours bound everything
    up to the last but one from below. *)
Lemma ascending_chain msgs b :
  (∀ j a' b', 1 ≤ j → j + 2 < length msgs →
              msgs !! j = Some a' → msgs !! (j + 1) = Some b' →
              (frame_id a' ≤ frame_id b')%Z) →
  msgs !! 1 = Some b →
  ∀ k c, 1 ≤ k → k + 1 < length msgs → msgs !! k = Some c →
         (frame_id b ≤ frame_id c)%Z.
Proof.
  intros Hasc Hb k. induction k as [|k IH]; intros c Hk Hlen Hc; [lia|].
  destruct (decide (k = 0)) as [->|Hk0]; [simplify_eq; lia|].
  destruct (lookup_lt_is_Some_2 msgs k) as [d Hd]; [lia|].
  assert (frame_id b ≤ frame_id d)%Z by (apply IH; [lia|lia|done]).
  assert (frame_id d ≤ frame_id c)%Z.
  { eapply (Hasc k); [lia|lia|done|]. by replace (k + 1) with (S k) by lia. }
  lia.
Qed.

(** Two runs of the sort leave every scanned pair in order. *)
Lemma sort_twice_scanned msgs :
  scanned_ascending (sort_messages_by_CAN_id (sort_messages_by_CAN_id msgs)).
Proof.
  assert (Hmid : ∀ j a b, 1 ≤ j → j + 2 < length (sort_messages_by_CAN_id msgs) →
            sort_messages_by_CAN_id msgs !! j = Some a →
            sort_messages_by_CAN_id msgs !! (j + 1) = Some b →
            (frame_id a ≤ frame_id b)%Z).
  { eapply (sort_loop_middle _ _ _ _ (sort_loop_sort_fuel msgs)). intros; lia. }
  revert Hmid. generalize (sort_messages_by_CAN_id msgs) as r. intros r Hmid.
  assert (Hrun := sort_loop_sort_fuel r).
  revert Hrun. generalize (sort_messages_by_CAN_id r) as t. intros t Hrun.
  destruct (sort_fuel r) as [|fuel] eqn:Hfuel; [done|].
  cbn [sort_loop] in Hrun. destruct (sort_guard r 0) eqn:Hg.
  - apply sort_guard_spec in Hg.
    destruct (sort_body_spec r 0) as (p & a & b & s & E & Hp & Hb); [lia|].
    destruct p; [|done]. simpl in E. rewrite Hb in Hrun.
    case_bool_decide as Hab.
    + (* the first pair is swapped; the rest of the run starts at 1 *)
      cbn [app] in Hrun.
      assert (Hs : s ≠ []) by (intros ->; rewrite E in Hg; simpl in Hg; lia).
      destruct (exists_last Hs) as (s' & z & ->).
      assert (Hinner := sort_loop_inner fuel b (a :: s') z 1 t).
      destruct Hinner as (m' & Et & Hm'); [lia|done|].
      assert (Hmid' : ∀ j a' b', 1 ≤ j → j + 2 < length t →
                t !! j = Some a' → t !! (j + 1) = Some b' →
                (frame_id a' ≤ frame_id b')%Z).
      { eapply (sort_loop_middle _ _ _ _ Hrun). intros; lia. }
      intros j a' b' Hlen Ha' Hb'.
      destruct (decide (j = 0)) as [->|Hj]; [|eapply (Hmid' j); [lia|done..]].
      rewrite Et in Ha', Hb'. simpl in Ha', Hb'. simplify_eq.
      destruct m' as [|c m']; [by apply Permutation_nil_cons in Hm'|].
      simpl in Hb'. simplify_eq.
      assert (Hin : b' ∈ a :: s') by (rewrite <- Hm'; left).
      apply elem_of_cons in Hin as [->|Hin]; [lia|].
      apply list_elem_of_lookup in Hin as [k Hk].
      apply (ascending_chain _ a' Hmid) with (k := S (S k)).
      * done.
      * lia.
      * simpl. rewrite length_app. simpl.
        apply lookup_lt_Some in Hk. lia.
      * simpl. by rewrite lookup_app_l by (by eapply lookup_lt_Some).
    + (* the first pair is in order: nothing is left to do *)
      assert (t = r) as ->.
      { eapply (sort_loop_fix fuel r 1); [|done].
        intros j a' b' Hj. by apply Hmid. }
      intros j a' b' Hlen Ha' Hb'.
      destruct (decide (j = 0)) as [->|Hj]; [|eapply (Hmid j); [lia|done..]].
      rewrite E in Ha', Hb'. simplify_eq/=. lia.
  - simplify_eq.
    unfold sort_guard in Hg. apply bool_decide_eq_false in Hg.
    intros j a b Hlen. lia.
Qed.

Lemma sort_fix_of_scanned msgs :
  scanned_ascending msgs → sort_messages_by_CAN_id msgs = msgs.
Proof.
  intros Hasc. eapply (sort_loop_fix _ msgs 0); [|apply sort_loop_sort_fuel].
  intros j a b _. apply Hasc.
Qed.

End sort_more.

Lemma sort_middle_sorted_witness :
  (frame_id (msg_AB 1) ≤ frame_id (msg_AB 3))%Z.
Proof.
  apply (sort_middle_sorted (map msg_AB [3; 2; 1; 0]%Z) 1);
    [lia | simpl; lia | reflexivity | reflexivity].
Defined.

(** The final element of the list is never moved: the sort only permutes
    what stands before it. *)
Theorem sort_keeps_last (l : list Message) (z : Message) :
  ∃ l', sort_messages_by_CAN_id (l ++ [z]) = l' ++ [z] ∧ l' ≡ₚ l.
Proof. apply (sort_loop_last _ _ _ _ _ (sort_loop_sort_fuel (l ++ [z]))). Qed.

(** The sort returns its argument unchanged exactly when all pairs of
    neighbours but the last are already in ascending order; so a list of
    at most two messages is always returned as it is. *)
Theorem sort_unchanged_iff (msgs : list Message) :
  (sort_messages_by_CAN_id msgs = msgs ↔ scanned_ascending msgs)
  ∧ (length msgs ≤ 2 → sort_messages_by_CAN_id msgs = msgs).
Proof.
  split; [split|].
  - intros E. assert (Hrun := sort_loop_sort_fuel msgs). rewrite E in Hrun.
    intros j a b. apply (sort_loop_same _ _ _ Hrun). lia.
  - apply sort_fix_of_scanned.
  - intros Hlen. apply sort_fix_of_scanned. intros j a b ?. lia.
Qed.

(** Two runs of the sort put every pair of neighbours but the last in
    ascending order, and a third run changes nothing. *)
Theorem sort_twice_settles (msgs : list Message) :
  let twice := sort_messages_by_CAN_id (sort_messages_by_CAN_id msgs) in
  scanned_ascending twice ∧ sort_messages_by_CAN_id twice = twice.
Proof.
  split; [apply sort_twice_scanned|].
  apply sort_fix_of_scanned, sort_twice_scanned.
Qed.

(** ** More on [messages_from_a_to_b] and [get_edges] *)

Section edge_more.
Implicit Types (db : Database) (messages : list Message) (msg : Message).
Implicit Types (senders receivers : list string) (sender receiver : string).

Lemma messages_from_a_to_b_single messages senders receiver :
  messages_from_a_to_b messages senders [receiver]
  = List.filter (qualifiesb senders [receiver]) messages.
Proof.
  rewrite messages_from_a_to_b_eq, msgs_to_search_eq.
  unfold qualifiesb, hits. simpl.
  induction messages as [|x messages IH]; simpl; [done|].
  destruct (existsb _ senders); simpl; [|apply IH].
  rewrite orb_false_r.
  destruct (received_by receiver x); simpl; [f_equal|]; apply IH.
Qed.

Lemma messages_from_a_to_b_app (m1 m2 : list Message) senders receivers :
  messages_from_a_to_b (m1 ++ m2) senders receivers
  = messages_from_a_to_b m1 senders receivers
    ++ messages_from_a_to_b m2 senders receivers.
Proof.
  rewrite !messages_from_a_to_b_eq, !msgs_to_search_eq.
  by rewrite List.filter_app, bind_app.
Qed.

(** A direct sender and receiver test for one pair of names. *)
Lemma qualifiesb_pair sender receiver msg :
  qualifiesb [sender] [receiver] msg = true
  ↔ sender ∈ msg_senders msg
    ∧ ∃ sig, sig ∈ msg_signals msg ∧ receiver ∈ sig_receivers sig.
Proof.
  rewrite qualifiesb_spec. unfold qualifies. split.
  - intros [(s & Hs & Hin) (r & Hr & Hsig)].
    apply list_elem_of_singleton in Hs as ->.
    by apply list_elem_of_singleton in Hr as ->.
  - intros [Hin Hsig]. split; eexists; (split; [by left|done]).
Qed.

(** The edges of one pair of names: the qualifying messages in the
    order the sort left them in. *)
Lemma get_edges_pair db sender receiver :
  (get_edges db [sender] [receiver]).1
  = (λ msg, (sender, receiver, msg)) <$>
      List.filter (qualifiesb [sender] [receiver])
        (sort_messages_by_CAN_id (db_messages db)).
Proof.
  rewrite get_edges_eq. cbn. rewrite !app_nil_r.
  by rewrite messages_from_a_to_b_single.
Qed.

Lemma get_edges_elem db senders receivers sender receiver msg :
  (sender, receiver, msg) ∈ (get_edges db senders receivers).1
  ↔ sender ∈ senders ∧ receiver ∈ receivers ∧ msg ∈ db_messages db
    ∧ sender ∈ msg_senders msg
    ∧ ∃ sig, sig ∈ msg_signals msg ∧ receiver ∈ sig_receivers sig.
Proof.
  rewrite get_edges_eq, list_elem_of_bind. split.
  - intros (s & Hin & Hs). apply list_elem_of_bind in Hin as (r & Hin & Hr).
    apply list_elem_of_fmap in Hin as (m & Heq & Hm). simplify_eq.
    rewrite messages_from_a_to_b_single in Hm.
    apply list_elem_of_In, filter_In in Hm as [Hm Hq].
    apply list_elem_of_In in Hm. rewrite sort_loop_perm in Hm.
    apply qualifiesb_pair in Hq as [? ?]. done.
  - intros (Hs & Hr & Hm & Hq). exists sender. split; [|done].
    apply list_elem_of_bind. exists receiver. split; [|done].
    apply list_elem_of_fmap. exists msg. split; [done|].
    rewrite messages_from_a_to_b_single.
    apply list_elem_of_In, filter_In. split.
    + apply list_elem_of_In. by rewrite sort_loop_perm.
    + by apply qualifiesb_pair.
Qed.

Lemma NoDup_List_filter {A} (f : A → bool) (l : list A) :
  NoDup l → NoDup (List.filter f l).
Proof.
  induction 1 as [|x l Hx Hl IH]; simpl; [constructor|].
  destruct (f x); [|done]. constructor; [|done].
  rewrite list_elem_of_In, filter_In, <- list_elem_of_In. tauto.
Qed.

Lemma get_edges_NoDup db senders receivers :
  NoDup senders → NoDup receivers → NoDup (db_messages db) →
  NoDup (get_edges db senders receivers).1.
Proof.
  intros Hs Hr Hm. rewrite get_edges_eq.
  assert (Hsorted : NoDup (sort_messages_by_CAN_id (db_messages db)))
    by by rewrite sort_loop_perm.
  apply NoDup_bind; [| |done].
  - intros s1 s2 e _ _ H1 H2.
    apply list_elem_of_bind in H1 as (r1 & H1 & _).
    apply list_elem_of_bind in H2 as (r2 & H2 & _).
    apply list_elem_of_fmap in H1 as (m1 & -> & _).
    apply list_elem_of_fmap in H2 as (m2 & ? & _). by simplify_eq.
  - intros s _. apply NoDup_bind; [| |done].
    + intros r1 r2 e _ _ H1 H2.
      apply list_elem_of_fmap in H1 as (m1 & -> & _).
      apply list_elem_of_fmap in H2 as (m2 & ? & _). by simplify_eq.
    + intros r _. apply NoDup_fmap_2; [by intros m1 m2 ?; simplify_eq|].
      rewrite messages_from_a_to_b_single. by apply NoDup_List_filter.
Qed.

End edge_more.

(** An edge is in the list exactly when its sender and receiver are
    among the given names, its message is in the database, the sender
    is one of the message's senders and the receiver reads one of its
    signals. *)
Theorem get_edges_exactly_traffic (db : Database)
    (senders receivers : list string) (sender receiver : string) (msg : Message) :
  (sender, receiver, msg) ∈ (get_edges db senders receivers).1
  ↔ sender ∈ senders ∧ receiver ∈ receivers ∧ msg ∈ db_messages db
    ∧ sender ∈ msg_senders msg
    ∧ ∃ sig, sig ∈ msg_signals msg ∧ receiver ∈ sig_receivers sig.
Proof. apply get_edges_elem. Qed.

(** Without repeated names and repeated messages no edge is listed
    twice. *)
Theorem get_edges_no_duplicates (db : Database) (senders receivers : list string) :
  NoDup senders → NoDup receivers → NoDup (db_messages db) →
  NoDup (get_edges db senders receivers).1.
Proof. apply get_edges_NoDup. Qed.

Lemma get_edges_no_duplicates_witness :
  NoDup (get_edges db_descending ["A"%string; "B"%string] ["B"%string]).1.
Proof.
  apply get_edges_no_duplicates.
  - apply (bool_decide_unpack _). vm_compute. exact I.
  - apply (bool_decide_unpack _). vm_compute. exact I.
  - apply (bool_decide_unpack _). vm_compute. exact I.
Defined.

(** For one sender and one receiver the edges are the qualifying
    messages, once each, in the order the sort left the database in; and
    the edges of a longer sender list are those of its parts, one after
    the other. *)
Theorem get_edges_order (db : Database)
    (sender receiver : string) (s1 s2 receivers : list string) :
  (get_edges db [sender] [receiver]).1
  = (λ msg, (sender, receiver, msg)) <$>
      List.filter (qualifiesb [sender] [receiver])
        (sort_messages_by_CAN_id (db_messages db))
  ∧ (get_edges db (s1 ++ s2) receivers).1
    = (get_edges db s1 receivers).1 ++ (get_edges db s2 receivers).1.
Proof.
  split; [apply get_edges_pair|].
  rewrite !get_edges_eq. apply bind_app.
Qed.

(** From the second call on, [get_edges] on the same database object
    returns the same edges and leaves the database as it finds it. *)
Theorem get_edges_settles (db : Database) (senders receivers : list string) :
  let first := get_edges db senders receivers in
  let second := get_edges first.2 senders receivers in
  let third := get_edges second.2 senders receivers in
  third = second.
Proof.
  cbn zeta. unfold get_edges. cbn [fst snd db_messages db_nodes].
  by rewrite (sort_fix_of_scanned _ (sort_twice_scanned (db_messages db))).
Qed.

(** [messages_from_a_to_b] works message by message: the result for a
    concatenation is the concatenation of the results; and it returns
    nothing when no sender name or no receiver name is given. *)
Theorem messages_from_a_to_b_compose
    (m1 m2 : list Message) (senders receivers : list string) :
  messages_from_a_to_b (m1 ++ m2) senders receivers
  = messages_from_a_to_b m1 senders receivers
    ++ messages_from_a_to_b m2 senders receivers
  ∧ messages_from_a_to_b m1 [] receivers = []
  ∧ messages_from_a_to_b m1 senders [] = [].
Proof.
  split; [apply messages_from_a_to_b_app|].
  rewrite !messages_from_a_to_b_eq, !msgs_to_search_eq. split.
  - simpl. induction m1 as [|x m1 IH]; simpl; done.
  - generalize (List.filter
      (λ msg, existsb (λ s, py_in s (msg_senders msg)) senders) m1) as l.
    induction l as [|x l IH]; [done|]. by rewrite bind_cons, IH.
Qed.

(** ** More on colours and [dbcview] *)

Section view_facts.
Implicit Types (edges : list Edge) (g : Digraph) (msg : Message).

Lemma color_no_range msg (c : Z) :
  color_str_for_msg msg c c = Ok "#7f007f"%string.
Proof.
  unfold color_str_for_msg. rewrite Z.sub_diag.
  rewrite bool_decide_eq_false_2 by (by intros ?). vm_compute. reflexivity.
Qed.

Lemma foldl_min_spec (t : list Z) : ∀ x,
  (foldl Z.min x t ∈ x :: t) ∧ (∀ y, y ∈ x :: t → (foldl Z.min x t ≤ y)%Z).
Proof.
  induction t as [|z t IH]; intros x; simpl.
  - split; [by left|]. intros y ->%list_elem_of_singleton. lia.
  - destruct (IH (Z.min x z)) as [Hin Hle]. split.
    + apply elem_of_cons in Hin as [Hin|Hin]; [|by do 2 right].
      rewrite Hin. destruct (Z.min_spec x z) as [[_ ->]|[_ ->]];
        [left|right; left]; done.
    + intros y Hy.
      assert (foldl Z.min (Z.min x z) t ≤ Z.min x z)%Z by (apply Hle; left).
      apply elem_of_cons in Hy as [Hy|Hy]; [subst; lia|].
      apply elem_of_cons in Hy as [Hy|Hy]; [subst; lia|]. apply Hle. by right.
Qed.

Lemma foldl_max_spec (t : list Z) : ∀ x,
  (foldl Z.max x t ∈ x :: t) ∧ (∀ y, y ∈ x :: t → (y ≤ foldl Z.max x t)%Z).
Proof.
  induction t as [|z t IH]; intros x; simpl.
  - split; [by left|]. intros y ->%list_elem_of_singleton. lia.
  - destruct (IH (Z.max x z)) as [Hin Hle]. split.
    + apply elem_of_cons in Hin as [Hin|Hin]; [|by do 2 right].
      rewrite Hin. destruct (Z.max_spec x z) as [[_ ->]|[_ ->]];
        [right; left|left]; done.
    + intros y Hy.
      assert (Z.max x z ≤ foldl Z.max (Z.max x z) t)%Z by (apply Hle; left).
      apply elem_of_cons in Hy as [Hy|Hy]; [subst; lia|].
      apply elem_of_cons in Hy as [Hy|Hy]; [subst; lia|]. apply Hle. by right.
Qed.

Lemma py_min_spec (l : list Z) (m : Z) :
  py_min l = Ok m → m ∈ l ∧ ∀ y, y ∈ l → (m ≤ y)%Z.
Proof.
  destruct l as [|x t]; [done|]. intros [= <-]. apply foldl_min_spec.
Qed.

Lemma py_max_spec (l : list Z) (m : Z) :
  py_max l = Ok m → m ∈ l ∧ ∀ y, y ∈ l → (y ≤ m)%Z.
Proof.
  destruct l as [|x t]; [done|]. intros [= <-]. apply foldl_max_spec.
Qed.

(** The loop over the edges adds one graphviz edge per edge, in order,
    and touches nothing else of the graph. *)
Lemma for_each_edges (min_id max_id : Z) edges : ∀ g g',
  for_each
    (λ g '(sender, receiver, msg),
       c ← color_str_for_msg msg min_id max_id ;
       Ok (mkDigraph (g_name g) (g_filename g)
             (g_body g ++ [mkGEdge sender receiver (fmt_msg_name msg) c])))
    edges g = Ok g' →
  g_name g' = g_name g ∧ g_filename g' = g_filename g
  ∧ ∃ added, g_body g' = g_body g ++ added
      ∧ gedge_shape <$> added
        = (λ e : Edge, (e.1.1, e.1.2, fmt_msg_name e.2)) <$> edges
      ∧ Forall2 (λ ge e, color_str_for_msg (edge_msg e) min_id max_id
                         = Ok (color ge)) added edges.
Proof.
  induction edges as [|[[s r] m] edges IH]; intros g g' Hrun; simpl in Hrun.
  - simplify_eq. split_and!; [done..|]. exists []. by rewrite app_nil_r.
  - destruct (color_str_for_msg m min_id max_id) as [c|] eqn:Hc; [|done].
    simpl in Hrun. apply IH in Hrun as (Hn & Hf & added & Hb & Hs & Hcol).
    simpl in *. split_and!; [done..|].
    exists (mkGEdge s r (fmt_msg_name m) c :: added). split_and!.
    + by rewrite Hb, <- app_assoc.
    + by rewrite !fmap_cons, Hs.
    + by constructor.
Qed.

Lemma dbcview_ok (graph_name output_dir : string) edges (a : Artifact) :
  dbcview graph_name edges output_dir = Ok a →
  edges ≠ []
  ∧ a_directory a = output_dir
  ∧ g_name (a_graph a) = graph_name
  ∧ g_filename (a_graph a) = replace_char " " "_" graph_name
  ∧ gedge_shape <$> g_body (a_graph a)
    = (λ e : Edge, (e.1.1, e.1.2, fmt_msg_name e.2)) <$> edges
  ∧ ∃ min_id max_id,
      (∃ e, e ∈ edges ∧ frame_id (edge_msg e) = min_id)
      ∧ (∃ e, e ∈ edges ∧ frame_id (edge_msg e) = max_id)
      ∧ (∀ e, e ∈ edges → (min_id ≤ frame_id (edge_msg e) ≤ max_id)%Z)
      ∧ Forall2 (λ ge e, color_str_for_msg (edge_msg e) min_id max_id
                         = Ok (color ge)) (g_body (a_graph a)) edges.
Proof.
  unfold dbcview. intros Hrun.
  destruct (py_min _) as [min_id|] eqn:Hmin; [|done].
  destruct (py_max _) as [max_id|] eqn:Hmax; [|done].
  simpl in Hrun.
  match type of Hrun with context [for_each ?body ?l ?g] =>
    destruct (for_each body l g) as [g'|] eqn:Hloop; [|done] end.
  simpl in Hrun. simplify_eq. cbn [a_graph a_directory].
  apply for_each_edges in Hloop as (Hn & Hf & added & Hb & Hs & Hcol).
  simpl in Hn, Hf, Hb. subst added.
  apply py_min_spec in Hmin as [Hmin_in Hmin_le].
  apply py_max_spec in Hmax as [Hmax_in Hmax_le].
  split_and!; [|done..|].
  - intros ->. by apply elem_of_nil in Hmin_in.
  - exists min_id, max_id. split_and!; [| | |done].
    + apply list_elem_of_fmap in Hmin_in as (e & -> & He). by exists e.
    + apply list_elem_of_fmap in Hmax_in as (e & -> & He). by exists e.
    + intros e He. split; [apply Hmin_le|apply Hmax_le];
        apply list_elem_of_fmap; by exists e.
Qed.

Lemma for_each_same_id (c : Z) edges : ∀ g,
  (∀ e, e ∈ edges → frame_id (edge_msg e) = c) →
  for_each
    (λ g '(sender, receiver, msg),
       col ← color_str_for_msg msg c c ;
       Ok (mkDigraph (g_name g) (g_filename g)
             (g_body g ++ [mkGEdge sender receiver (fmt_msg_name msg) col])))
    edges g
  = Ok (mkDigraph (g_name g) (g_filename g)
          (g_body g ++
             ((λ e : Edge, mkGEdge e.1.1 e.1.2 (fmt_msg_name e.2) "#7f007f"%string)
                <$> edges))).
Proof.
  induction edges as [|[[s r] m] edges IH]; intros g Hall; simpl.
  - rewrite app_nil_r. by destruct g.
  - rewrite color_no_range. simpl. rewrite IH by (intros e He; apply Hall; by right).
    simpl. by rewrite <- app_assoc.
Qed.

Lemma replace_char_chars (a b : ascii) (s : string) :
  a ≠ b →
  (a ∉ chars (replace_char a b s))
  ∧ String.length (replace_char a b s) = String.length s
  ∧ (a ∉ chars s → replace_char a b s = s).
Proof.
  intros Hab. induction s as [|c s (IH1 & IH2 & IH3)]; simpl.
  - split_and!; [apply not_elem_of_nil|done..].
  - split_and!.
    + rewrite not_elem_of_cons. split; [|done]. case_bool_decide; congruence.
    + by rewrite IH2.
    + rewrite not_elem_of_cons. intros [Hc Hs].
      rewrite bool_decide_eq_false_2 by congruence. by rewrite IH3.
Qed.

End view_facts.

(** When the smallest and the largest identifier given are the same,
    every message gets the colour [#7f007f], whatever its own
    identifier. *)
Theorem color_without_range (msg : Message) (c : Z) :
  color_str_for_msg msg c c = Ok "#7f007f"%string.
Proof. apply color_no_range. Qed.

(** What a successful [dbcview] hands to graphviz: the edge list was not
    empty; the graph has the given name, a file name that is the name
    with its spaces replaced, and the given directory; it has one edge
    per edge of the list, in order, labelled by [fmt_msg_name]; and each
    colour is [color_str_for_msg] of the message between the smallest
    and the largest identifier of this very edge list. *)
Theorem dbcview_renders (graph_name output_dir : string)
    (edges : list Edge) (a : Artifact) :
  dbcview graph_name edges output_dir = Ok a →
  edges ≠ []
  ∧ a_directory a = output_dir
  ∧ g_name (a_graph a) = graph_name
  ∧ g_filename (a_graph a) = replace_char " " "_" graph_name
  ∧ gedge_shape <$> g_body (a_graph a)
    = (λ e : Edge, (e.1.1, e.1.2, fmt_msg_name e.2)) <$> edges
  ∧ ∃ min_id max_id,
      (∃ e, e ∈ edges ∧ frame_id (edge_msg e) = min_id)
      ∧ (∃ e, e ∈ edges ∧ frame_id (edge_msg e) = max_id)
      ∧ (∀ e, e ∈ edges → (min_id ≤ frame_id (edge_msg e) ≤ max_id)%Z)
      ∧ Forall2 (λ ge e, color_str_for_msg (edge_msg e) min_id max_id
                         = Ok (color ge)) (g_body (a_graph a)) edges.
Proof. apply dbcview_ok. Qed.

(** A non-empty edge list whose messages all carry one identifier is
    always rendered, every edge in [#7f007f]. *)
Theorem dbcview_single_id (graph_name output_dir : string)
    (edges : list Edge) (c : Z) :
  edges ≠ [] →
  (∀ e, e ∈ edges → frame_id (edge_msg e) = c) →
  dbcview graph_name edges output_dir
  = Ok (mkArtifact
          (mkDigraph graph_name (replace_char " " "_" graph_name)
             ((λ e : Edge, mkGEdge e.1.1 e.1.2 (fmt_msg_name e.2) "#7f007f"%string)
                <$> edges))
          output_dir).
Proof.
  intros Hne Hall. unfold dbcview.
  destruct (py_min _) as [min_id|] eqn:Hmin; [|by destruct edges].
  destruct (py_max _) as [max_id|] eqn:Hmax; [|by destruct edges].
  apply py_min_spec in Hmin as [Hmin _]. apply py_max_spec in Hmax as [Hmax _].
  apply list_elem_of_fmap in Hmin as (e1 & -> & He1).
  apply list_elem_of_fmap in Hmax as (e2 & -> & He2).
  rewrite (Hall e1 He1), (Hall e2 He2). simpl.
  by rewrite for_each_same_id.
Qed.

(** The file name given to graphviz holds no space and is as long as
    the graph name; a name without spaces is used as it is. *)
Theorem filename_has_no_space (graph_name : string) :
  (" "%char ∉ chars (replace_char " " "_" graph_name))
  ∧ String.length (replace_char " " "_" graph_name) = String.length graph_name
  ∧ (" "%char ∉ chars graph_name → replace_char " " "_" graph_name = graph_name).
Proof. by apply replace_char_chars. Qed.

(** ** More on node names and the selection *)

(** The node names of a database are listed without repetition, they
    are exactly the names of its nodes, and the list is empty only for a
    database without nodes. *)
Theorem get_node_names_distinct (db : Database) :
  NoDup (get_node_names db)
  ∧ (∀ n, n ∈ get_node_names db ↔ ∃ node, node ∈ db_nodes db ∧ node_name node = n)
  ∧ (get_node_names db = [] ↔ db_nodes db = []).
Proof.
  split_and!.
  - unfold get_node_names, list_set. apply NoDup_elements.
  - apply get_node_names_spec.
  - split.
    + intros E. destruct (db_nodes db) as [|node l] eqn:Hl; [done|].
      assert (node_name node ∈ get_node_names db) as Hin.
      { apply get_node_names_spec. exists node. rewrite Hl. split; [left|done]. }
      rewrite E in Hin. by apply elem_of_nil in Hin.
    + intros E. unfold get_node_names. by rewrite E.
Qed.

Section selection_more.
Implicit Types (all_nodes nodes senders receivers ignore : list string).

Lemma filter_nothing_ignored (l : list string) :
  List.filter (λ n, negb (py_in n [])) l = l.
Proof.
  induction l as [|x l IH]; [done|]. cbn [List.filter].
  unfold py_in at 1. rewrite bool_decide_eq_false_2 by apply not_elem_of_nil.
  cbn [negb]. by rewrite IH.
Qed.

Lemma select_nodes_subset all_nodes nodes senders receivers ignore (n : string) :
  List.filter (λ n, negb (py_in n all_nodes))
    (nodes ++ senders ++ receivers ++ ignore) = [] →
  (n ∈ (select_nodes all_nodes nodes senders receivers ignore).1 → n ∈ all_nodes)
  ∧ (n ∈ (select_nodes all_nodes nodes senders receivers ignore).2 → n ∈ all_nodes).
Proof.
  intros Hvalid. rewrite nonexistent_nil in Hvalid.
  assert (Hpool : ∀ m, m ∈ List.filter (λ n, negb (py_in n ignore)) all_nodes
                       → m ∈ all_nodes)
    by (intros m Hm; by apply filter_not_in in Hm as [? _]).
  unfold select_nodes. destruct nodes as [|x nodes]; cbn [truthy].
  - destruct senders as [|s senders], receivers as [|r receivers];
      cbn [truthy orb list_or fst snd]; split; try apply Hpool;
      intros Hn; apply Hvalid; set_solver.
  - cbn [fst snd]. rewrite list_set_spec, elem_of_app.
    split; (intros [Hn|Hn]; [apply Hvalid; set_solver|by apply Hpool]).
Qed.

Lemma select_nodes_by_nodes all_nodes nodes senders receivers ignore :
  nodes ≠ [] →
  let sel := select_nodes all_nodes nodes senders receivers ignore in
  sel = select_nodes all_nodes nodes [] [] ignore
  ∧ sel.1 = sel.2
  ∧ NoDup sel.1
  ∧ ∀ n, n ∈ sel.1 ↔ n ∈ nodes ∨ (n ∈ all_nodes ∧ n ∉ ignore).
Proof.
  intros Hne. unfold select_nodes. destruct nodes as [|x nodes]; [done|].
  cbn [truthy fst snd]. split_and!; [done|done|unfold list_set; apply NoDup_elements|].
  intros n. by rewrite list_set_spec, elem_of_app, filter_not_in.
Qed.

End selection_more.

(** Once the validation of [main] has passed, both resolved sets hold
    known node names only. *)
Theorem select_nodes_within_catalog
    (all_nodes nodes senders receivers ignore : list string) (n : string) :
  List.filter (λ n, negb (py_in n all_nodes))
    (nodes ++ senders ++ receivers ++ ignore) = [] →
  (n ∈ (select_nodes all_nodes nodes senders receivers ignore).1 → n ∈ all_nodes)
  ∧ (n ∈ (select_nodes all_nodes nodes senders receivers ignore).2 → n ∈ all_nodes).
Proof. apply select_nodes_subset. Qed.

Lemma select_nodes_within_catalog_witness :
  ("A"%string ∈ (select_nodes ["A"; "B"; "C"]%string [] ["A"%string] [] ["C"%string]).1
   → "A"%string ∈ ["A"; "B"; "C"]%string)
  ∧ ("A"%string ∈ (select_nodes ["A"; "B"; "C"]%string [] ["A"%string] [] ["C"%string]).2
     → "A"%string ∈ ["A"; "B"; "C"]%string).
Proof.
  apply (select_nodes_within_catalog
           ["A"; "B"; "C"]%string [] ["A"%string] [] ["C"%string] "A"%string).
  reflexivity.
Defined.

(** With a node list given, the sender and receiver lists play no part:
    both resolved sets are one duplicate-free list holding the given
    nodes and every known node that is not ignored. The node list does
    not narrow the selection. *)
Theorem select_nodes_node_mode
    (all_nodes nodes senders receivers ignore : list string) :
  nodes ≠ [] →
  let sel := select_nodes all_nodes nodes senders receivers ignore in
  sel = select_nodes all_nodes nodes [] [] ignore
  ∧ sel.1 = sel.2
  ∧ NoDup sel.1
  ∧ ∀ n, n ∈ sel.1 ↔ n ∈ nodes ∨ (n ∈ all_nodes ∧ n ∉ ignore).
Proof. apply select_nodes_by_nodes. Qed.

Lemma select_nodes_node_mode_witness :
  let sel := select_nodes ["A"; "B"; "C"]%string ["A"%string] ["B"%string] []
               ["C"%string] in
  sel = select_nodes ["A"; "B"; "C"]%string ["A"%string] [] [] ["C"%string]
  ∧ sel.1 = sel.2
  ∧ NoDup sel.1
  ∧ ∀ n, n ∈ sel.1 ↔ n ∈ ["A"%string]
                     ∨ (n ∈ ["A"; "B"; "C"]%string ∧ n ∉ ["C"%string]).
Proof.
  apply (select_nodes_node_mode
           ["A"; "B"; "C"]%string ["A"%string] ["B"%string] [] ["C"%string]).
  discriminate.
Defined.

(** Without a node list, a given sender list is the resolved sender set
    as it stands and a missing one is replaced by the known nodes that
    are not ignored, and likewise for the receivers; with no filter and
    nothing ignored both sets are the catalogue itself. *)
Theorem select_nodes_fallback
    (all_nodes senders receivers ignore : list string) :
  let pool := List.filter (λ n, negb (py_in n ignore)) all_nodes in
  select_nodes all_nodes [] senders receivers ignore
  = (if bool_decide (senders = []) then pool else senders,
     if bool_decide (receivers = []) then pool else receivers)
  ∧ select_nodes all_nodes [] [] [] [] = (all_nodes, all_nodes).
Proof.
  split.
  - unfold select_nodes. cbn [truthy].
    destruct senders, receivers; done.
  - unfold select_nodes. cbn [truthy orb]. by rewrite filter_nothing_ignored.
Qed.

(** ** [graph_title] *)

Section title_facts.
Implicit Types (stem : string) (senders receivers : list string).

Lemma list_to_set_eq_iff senders receivers :
  (list_to_set senders : gset string) = list_to_set receivers
  ↔ ∀ n, n ∈ senders ↔ n ∈ receivers.
Proof.
  split.
  - intros E n. by rewrite <- !(elem_of_list_to_set (C:=gset string)), E.
  - intros H. apply set_eq. intros n. by rewrite !elem_of_list_to_set.
Qed.

Lemma graph_title_spec stem senders receivers :
  ((∀ n, n ∈ senders ↔ n ∈ receivers) → graph_title stem senders receivers = stem)
  ∧ (senders ≠ [] → receivers = [] →
     graph_title stem senders receivers
     = stem +:+ " from " +:+ String.concat " " senders +:+ " ")
  ∧ (senders = [] → receivers ≠ [] →
     graph_title stem senders receivers
     = stem +:+ "  to " +:+ String.concat " " receivers)
  ∧ (senders ≠ [] → receivers ≠ [] → ¬ (∀ n, n ∈ senders ↔ n ∈ receivers) →
     graph_title stem senders receivers
     = stem +:+ " from " +:+ String.concat " " senders
            +:+ " to " +:+ String.concat " " receivers).
Proof.
  unfold graph_title. split_and!.
  - intros H. apply list_to_set_eq_iff in H.
    by rewrite bool_decide_eq_false_2 by (by intros ?).
  - intros Hs ->. destruct senders as [|s senders]; [done|].
    rewrite bool_decide_eq_true_2.
    + cbn [truthy truthy_str]. reflexivity.
    + intros E. pose proof (proj1 (list_to_set_eq_iff _ _) E) as E'. clear E. rename E' into E.
      assert (s ∈ s :: senders) as Hin by left.
      apply E in Hin. by apply elem_of_nil in Hin.
  - intros -> Hr. destruct receivers as [|r receivers]; [done|].
    rewrite bool_decide_eq_true_2.
    + cbn [truthy truthy_str]. reflexivity.
    + intros E. pose proof (proj1 (list_to_set_eq_iff _ _) E) as E'. clear E. rename E' into E.
      assert (r ∈ r :: receivers) as Hin by left.
      apply E in Hin. by apply elem_of_nil in Hin.
  - intros Hs Hr Hne. destruct senders as [|s senders]; [done|].
    destruct receivers as [|r receivers]; [done|].
    rewrite bool_decide_eq_true_2 by (by rewrite list_to_set_eq_iff).
    cbn [truthy truthy_str]. reflexivity.
Qed.

End title_facts.

(** The graph title. Sender and receiver lists with the same names, in
    any order and multiplicity, leave the file's stem as the title,
    so in particular no filter does. Otherwise the title is the stem
    followed by [" from <senders> to <receivers>"]; a missing part is
    left empty but its separating space is kept: senders alone leave a
    trailing space, receivers alone two spaces before [to]. *)
Theorem graph_title_cases (stem : string) (senders receivers : list string) :
  ((∀ n, n ∈ senders ↔ n ∈ receivers) → graph_title stem senders receivers = stem)
  ∧ (senders ≠ [] → receivers = [] →
     graph_title stem senders receivers
     = stem +:+ " from " +:+ String.concat " " senders +:+ " ")
  ∧ (senders = [] → receivers ≠ [] →
     graph_title stem senders receivers
     = stem +:+ "  to " +:+ String.concat " " receivers)
  ∧ (senders ≠ [] → receivers ≠ [] → ¬ (∀ n, n ∈ senders ↔ n ∈ receivers) →
     graph_title stem senders receivers
     = stem +:+ " from " +:+ String.concat " " senders
            +:+ " to " +:+ String.concat " " receivers).
Proof. apply graph_title_spec. Qed.

(** ** [cli] *)

Section cli_facts.
Implicit Types (sep c : ascii) (s p : string) (l : list string).

Lemma str_split_not_nil sep s : str_split sep s ≠ [].
Proof.
  destruct s as [|c s]; simpl; [done|].
  case_bool_decide; [done|]. by destruct (str_split sep s).
Qed.

Lemma str_split_concat sep s :
  String.concat (String sep EmptyString) (str_split sep s) = s.
Proof.
  induction s as [|c s IH]; [done|]. cbn [str_split].
  assert (Hne := str_split_not_nil sep s).
  destruct (str_split sep s) as [|piece pieces]; [done|].
  case_bool_decide as Hc.
  - subst c. cbn [String.concat]. simpl. by rewrite <- IH.
  - rewrite <- IH. destruct pieces; reflexivity.
Qed.

Lemma str_split_pieces sep s p : p ∈ str_split sep s → sep ∉ chars p.
Proof.
  revert p. induction s as [|c s IH]; intros p; cbn [str_split].
  - intros ->%list_elem_of_singleton. apply not_elem_of_nil.
  - assert (Hne := str_split_not_nil sep s).
    destruct (str_split sep s) as [|piece pieces]; [done|].
    case_bool_decide as Hc.
    + intros [->|Hp]%elem_of_cons; [apply not_elem_of_nil|by apply IH].
    + intros [->|Hp]%elem_of_cons.
      * simpl. rewrite not_elem_of_cons. split; [congruence|apply IH; left].
      * apply IH. by right.
Qed.

Lemma str_split_length sep s :
  length (str_split sep s) = S (count_char sep s).
Proof.
  unfold count_char. induction s as [|c s IH]; [done|]. cbn [str_split chars].
  assert (Hne := str_split_not_nil sep s).
  destruct (str_split sep s) as [|piece pieces]; [done|].
  simpl. case_bool_decide; simpl in *; lia.
Qed.

Lemma str_split_trailing sep s :
  str_split sep (s +:+ String sep EmptyString)
  = str_split sep s ++ [EmptyString].
Proof.
  induction s as [|c s IH]; simpl.
  - by rewrite bool_decide_eq_true_2.
  - rewrite IH. case_bool_decide; [done|].
    assert (Hne := str_split_not_nil sep s).
    by destruct (str_split sep s).
Qed.

Lemma str_split_plain sep p : sep ∉ chars p → str_split sep p = [p].
Proof.
  induction p as [|c p IH]; [done|]. simpl. rewrite not_elem_of_cons.
  intros [Hc Hp]. rewrite bool_decide_eq_false_2 by congruence. by rewrite IH.
Qed.

Lemma str_split_piece_first sep p s :
  sep ∉ chars p →
  str_split sep (p +:+ String sep s) = p :: str_split sep s.
Proof.
  induction p as [|c p IH]; simpl.
  - intros _. by rewrite bool_decide_eq_true_2.
  - rewrite not_elem_of_cons. intros [Hc Hp].
    rewrite bool_decide_eq_false_2 by congruence. by rewrite IH.
Qed.

Lemma concat_split sep l :
  l ≠ [] → (∀ n, n ∈ l → sep ∉ chars n) →
  str_split sep (String.concat (String sep EmptyString) l) = l.
Proof.
  induction l as [|x l IH]; [done|]. intros _ Hall.
  destruct l as [|y l].
  - simpl. apply str_split_plain, Hall. left.
  - change (String.concat (String sep EmptyString) (x :: y :: l))
      with (x +:+ String sep (String.concat (String sep EmptyString) (y :: l))).
    rewrite str_split_piece_first by (apply Hall; left).
    rewrite IH; [done|done|]. intros n Hn. apply Hall. by right.
Qed.

Lemma split_names_concat l :
  plain_names l → split_names (String.concat "," l) = l.
Proof.
  intros [Hne Hall]. unfold split_names.
  destruct l as [|x l]; [done|].
  destruct (String.concat "," (x :: l)) as [|c s] eqn:E.
  - destruct l as [|y l]; [simpl in E; by subst|].
    change (String.concat "," (x :: y :: l))
      with (x +:+ String "," (String.concat "," (y :: l))) in E.
    by destruct x.
  - cbn [truthy_str]. rewrite <- E. by apply concat_split.
Qed.

End cli_facts.

(** Splitting at a separator and joining with it again gives the string
    back; no piece holds the separator; there is one more piece than
    separators, so never none; and a trailing separator gives a final
    empty piece. *)
Theorem str_split_join (sep : ascii) (s : string) :
  String.concat (String sep EmptyString) (str_split sep s) = s
  ∧ (∀ p, p ∈ str_split sep s → sep ∉ chars p)
  ∧ length (str_split sep s) = S (count_char sep s)
  ∧ str_split sep (s +:+ String sep EmptyString)
    = str_split sep s ++ [EmptyString].
Proof.
  split_and!; [apply str_split_concat|apply str_split_pieces
              |apply str_split_length|apply str_split_trailing].
Qed.

(** Option strings written by joining names with commas reach [main] as
    those very name lists, provided no name holds a comma and no list is
    the single empty name (the empty option string stands for no name
    at all). *)
Theorem cli_passes_names (env : Env) (filename : string)
    (nodes senders receivers ignore : list string) (o : string) :
  plain_names senders → plain_names receivers → plain_names ignore →
  cli env filename nodes
    (String.concat "," senders) (String.concat "," receivers)
    (String.concat "," ignore) o
  = main env filename nodes senders receivers ignore o.
Proof.
  intros Hs Hr Hi. unfold cli. by rewrite !split_names_concat.
Qed.

(** ** More on [main] *)

(** Whenever a run gets past the validation and finds no edge, it prints
    the line about it and then ends in an uncaught [ValueError]. *)
Theorem main_no_edges_raises (env : Env) (dbc_filename : string)
    (nodes senders receivers ignore : list string) (output_dir : string) :
  let db := load_file env dbc_filename in
  let sel := select_nodes (get_node_names db) nodes senders receivers ignore in
  get_node_names db ≠ [] →
  List.filter (λ n, negb (py_in n (get_node_names db)))
    (nodes ++ senders ++ receivers ++ ignore) = [] →
  (get_edges db sel.1 sel.2).1 = [] →
  let r := main env dbc_filename nodes senders receivers ignore output_dir in
  stdout r = [NoEdgesLine sel.1 sel.2] ∧ ended r = Uncaught ValueError.
Proof. apply main_no_edges. Qed.

Lemma main_no_edges_raises_witness :
  let r := main (env_of db_silent) "bus.dbc" [] [] [] [] "" in
  stdout r
  = [NoEdgesLine
       (select_nodes (get_node_names db_silent) [] [] [] []).1
       (select_nodes (get_node_names db_silent) [] [] [] []).2]
  ∧ ended r = Uncaught ValueError.
Proof.
  apply (main_no_edges_raises (env_of db_silent) "bus.dbc" [] [] [] [] "").
  - vm_compute. discriminate.
  - reflexivity.
  - reflexivity.
Defined.

(** The three ways a run can end. It returns early exactly when the
    database has no node or a requested name is unknown. It ends with
    the graph viewed only if it printed nothing, and the graph then has
    at least one edge. In every case the database keeps its nodes and
    keeps its messages up to their order. *)
Theorem main_outcomes (env : Env) (dbc_filename : string)
    (nodes senders receivers ignore : list string) (output_dir : string) :
  let db := load_file env dbc_filename in
  let requested := nodes ++ senders ++ receivers ++ ignore in
  let r := main env dbc_filename nodes senders receivers ignore output_dir in
  (ended r = Returned
   ↔ get_node_names db = [] ∨ ∃ n, n ∈ requested ∧ n ∉ get_node_names db)
  ∧ (∀ a, ended r = Viewed a → stdout r = [] ∧ g_body (a_graph a) ≠ [])
  ∧ db_nodes (db_after r) = db_nodes db
  ∧ db_messages (db_after r) ≡ₚ db_messages db.
Proof.
  intros db requested r. subst r.
  destruct (decide (get_node_names db = [])) as [Hnil|Hne].
  { subst db. rewrite main_no_nodes by done. cbn.
    split_and!; [split; [by left|done]|done|done|done]. }
  destruct (List.filter (λ n, negb (py_in n (get_node_names db))) requested)
    as [|bad rest] eqn:Hbad.
  - assert (Hall := proj1 (nonexistent_nil _ _) Hbad).
    subst db requested. rewrite main_valid by done. cbn [ended stdout db_after].
    set (sel := select_nodes _ nodes senders receivers ignore).
    rewrite get_edges_db. cbn [db_nodes db_messages].
    split_and!; [| |done|apply sort_loop_perm].
    + split.
      * by destruct (dbcview _ _ _).
      * intros [H|(n & Hn & Hno)]; [done|]. destruct Hno. by apply Hall.
    + intros a Ha.
      destruct (dbcview _ _ _) as [a'|] eqn:Hview; [|done]. simplify_eq.
      apply dbcview_ok in Hview as (Hedges & _ & _ & _ & Hshape & _).
      destruct ((get_edges _ sel.1 sel.2).1) as [|e edges]; [done|].
      split; [done|]. intros Hb. by rewrite Hb in Hshape.
  - assert (bad ∈ List.filter (λ n, negb (py_in n (get_node_names db))) requested)
      as Hin by (rewrite Hbad; left).
    apply filter_not_in in Hin.
    subst db requested. rewrite main_unknown_names; [|done|by rewrite Hbad].
    cbn. split_and!; [split; [right; by exists bad|done]|done|done|done].
Qed.

(** Ignoring every node of the database, with no other filter, always
    ends in the uncaught [ValueError]: the pool is empty, so no edge is
    found. *)
Theorem main_ignore_everything (env : Env) (dbc_filename : string)
    (ignore : list string) (output_dir : string) :
  let db := load_file env dbc_filename in
  get_node_names db ≠ [] →
  (∀ n, n ∈ ignore ↔ n ∈ get_node_names db) →
  let r := main env dbc_filename [] [] [] ignore output_dir in
  stdout r = [NoEdgesLine [] []] ∧ ended r = Uncaught ValueError.
Proof.
  intros db Hne Hall r. subst r.
  assert (Hpool : List.filter (λ n, negb (py_in n ignore)) (get_node_names db) = []).
  { apply nonexistent_nil. intros n Hn. by apply Hall. }
  assert (Hsel : select_nodes (get_node_names db) [] [] [] ignore = ([], [])).
  { unfold select_nodes. cbn [truthy orb]. by rewrite Hpool. }
  destruct (main_no_edges env dbc_filename [] [] [] ignore output_dir)
    as [Hout Hend].
  - done.
  - apply nonexistent_nil. intros n Hn. apply Hall. set_solver.
  - fold db. by rewrite Hsel.
  - fold db in Hout. by rewrite Hsel in Hout.
Qed.

Lemma main_ignore_everything_witness :
  let r := main (env_of db_three) "bus.dbc" [] [] [] ["A"; "B"; "C"]%string "" in
  stdout r = [NoEdgesLine [] []] ∧ ended r = Uncaught ValueError.
Proof.
  apply (main_ignore_everything (env_of db_three) "bus.dbc"
           ["A"; "B"; "C"]%string "").
  - vm_compute. discriminate.
  - intros n. rewrite !list_elem_of_In. vm_compute. tauto.
Defined.

(** An option string that ends in a comma names the empty node: unless
    the database has a node of that name, the run stops at the
    validation and lists the empty name among the unknown ones. *)
Theorem cli_trailing_comma (env : Env) (filename : string)
    (nodes : list string) (senders receivers ignore o : string) :
  let db := load_file env filename in
  get_node_names db ≠ [] →
  EmptyString ∉ get_node_names db →
  let r := cli env filename nodes (senders +:+ ",") receivers ignore o in
  ended r = Returned
  ∧ ∃ nonexistent_nodes,
      stdout r = [NotFoundLine nonexistent_nodes filename;
                  NodesInFileLine (get_node_names db)]
      ∧ EmptyString ∈ nonexistent_nodes.
Proof.
  intros db Hne Hno r. subst r. unfold cli.
  assert (Hin : EmptyString ∈ split_names (senders +:+ ",")).
  { unfold split_names.
    replace (truthy_str (senders +:+ ",")) with true by (by destruct senders).
    rewrite str_split_trailing. set_solver. }
  set (requested := nodes ++ split_names (senders +:+ ",")
                      ++ split_names receivers ++ split_names ignore).
  assert (Hbad : EmptyString
            ∈ List.filter (λ n, negb (py_in n (get_node_names db))) requested).
  { apply filter_not_in. split; [|done]. subst requested. set_solver. }
  subst db. rewrite main_unknown_names; [|done|].
  - split; [done|]. eexists. split; [done|]. exact Hbad.
  - fold requested. intros E. rewrite E in Hbad. by apply elem_of_nil in Hbad.
Qed.

Lemma cli_trailing_comma_witness :
  let r := cli (env_of db_three) "bus.dbc" [] ("A" +:+ ",") "" "" "" in
  ended r = Returned
  ∧ ∃ nonexistent_nodes,
      stdout r = [NotFoundLine nonexistent_nodes "bus.dbc";
                  NodesInFileLine (get_node_names db_three)]
      ∧ EmptyString ∈ nonexistent_nodes.
Proof.
  apply (cli_trailing_comma (env_of db_three) "bus.dbc" [] "A" "" "" "").
  - vm_compute. discriminate.
  - apply (bool_decide_unpack _). vm_compute. exact I.
Defined.

Lemma cli_passes_names_witness :
  cli (env_of db_descending) "bus.dbc" []
    (String.concat "," ["A"%string]) (String.concat "," ["B"%string])
    (String.concat "," []) ""
  = main (env_of db_descending) "bus.dbc" [] ["A"%string] ["B"%string] [] "".
Proof.
  apply cli_passes_names.
  - split; [discriminate|]. intros n ->%list_elem_of_singleton.
    apply (bool_decide_unpack _). vm_compute. exact I.
  - split; [discriminate|]. intros n ->%list_elem_of_singleton.
    apply (bool_decide_unpack _). vm_compute. exact I.
  - split; [discriminate|]. intros n Hn. by apply elem_of_nil in Hn.
Defined.

Lemma dbcview_renders_witness :
  edges_AB ≠ []
  ∧ a_directory artifact_AB = "/tmp/graphs"%string
  ∧ g_name (a_graph artifact_AB) = "bus"%string
  ∧ g_filename (a_graph artifact_AB) = replace_char " " "_" "bus"
  ∧ gedge_shape <$> g_body (a_graph artifact_AB)
    = (λ e : Edge, (e.1.1, e.1.2, fmt_msg_name e.2)) <$> edges_AB
  ∧ ∃ min_id max_id,
      (∃ e, e ∈ edges_AB ∧ frame_id (edge_msg e) = min_id)
      ∧ (∃ e, e ∈ edges_AB ∧ frame_id (edge_msg e) = max_id)
      ∧ (∀ e, e ∈ edges_AB → (min_id ≤ frame_id (edge_msg e) ≤ max_id)%Z)
      ∧ Forall2 (λ ge e, color_str_for_msg (edge_msg e) min_id max_id
                         = Ok (color ge)) (g_body (a_graph artifact_AB)) edges_AB.
Proof.
  apply (dbcview_renders "bus" "/tmp/graphs" edges_AB artifact_AB).
  vm_compute. reflexivity.
Defined.

Lemma dbcview_single_id_witness :
  dbcview "bus" [("A"%string, "B"%string, msg_AB 7)] "/tmp/graphs"
  = Ok (mkArtifact
          (mkDigraph "bus" (replace_char " " "_" "bus")
             ((λ e : Edge, mkGEdge e.1.1 e.1.2 (fmt_msg_name e.2) "#7f007f"%string)
                <$> [("A"%string, "B"%string, msg_AB 7)]))
          "/tmp/graphs").
Proof.
  apply (dbcview_single_id "bus" "/tmp/graphs"
           [("A"%string, "B"%string, msg_AB 7)] 7).
  - discriminate.
  - intros e ->%list_elem_of_singleton. reflexivity.
Defined.

(** ** Calls from one database state *)

(** C3. Two calls of [get_edges] with the same name lists, made from the
    same database state, yield identical ordered edge lists and leave
    identical message lists. The state that counts is the message list:
    databases that differ elsewhere agree too. Each call does yield its
    list: the run of the sort it starts ends normally, with the message
    list the call leaves, for every fuel from [sort_fuel] on. A call
    changes the state it was made from unless every scanned pair of the
    message list is already in ascending order; when it is, the state
    is the same after the call, and so is the list a further call on
    that object returns. *)
Theorem get_edges_idempotent (db db' : Database)
    (senders receivers : list string) (k : nat) :
  db_messages db' = db_messages db →
  (get_edges db' senders receivers).1 = (get_edges db senders receivers).1
  ∧ db_messages (get_edges db' senders receivers).2
    = db_messages (get_edges db senders receivers).2
  ∧ sort_loop (sort_fuel (db_messages db) + k) (db_messages db) 0
    = Done (db_messages (get_edges db' senders receivers).2)
  ∧ ((get_edges db senders receivers).2 = db
     ↔ scanned_ascending (db_messages db))
  ∧ (scanned_ascending (db_messages db) →
     (get_edges (get_edges db senders receivers).2 senders receivers).1
     = (get_edges db senders receivers).1).
Proof.
  intros E. split_and!.
  - by rewrite !get_edges_eq, E.
  - by rewrite !get_edges_db, E.
  - rewrite get_edges_db, E. cbn [db_messages].
    apply sort_loop_more, sort_loop_sort_fuel.
  - rewrite get_edges_db. destruct db as [ns ms]. cbn [db_nodes db_messages].
    split.
    + intros [= Hs]. assert (Hrun := sort_loop_sort_fuel ms). rewrite Hs in Hrun.
      intros j a b. apply (sort_loop_same _ _ _ Hrun). lia.
    + intros Hasc. by rewrite (sort_fix_of_scanned _ Hasc).
  - intros Hasc. rewrite get_edges_db. destruct db as [ns ms].
    cbn [db_nodes db_messages] in *. by rewrite (sort_fix_of_scanned _ Hasc).
Qed.

Lemma get_edges_idempotent_witness :
  (get_edges db_descending_ABC ["A"%string] ["B"%string]).1
  = (get_edges db_descending ["A"%string] ["B"%string]).1.
Proof.
  apply (get_edges_idempotent db_descending db_descending_ABC
           ["A"%string] ["B"%string] 0).
  reflexivity.
Defined.

(** ** Explicit names that are also ignored *)


